(** * Verification of the client-side delegation library
      (scripts/lib/delegation.mjs and the scripts around it).

    scripts/lib/delegation.mjs holds two revisions of the module one after
    the other; the model follows the later one (from its second [import]
    on), the one with the ValueLteEnforcer and the [mode] argument.

    Modelling conventions.
    - Hex blobs ("0x...") are byte lists ([list Byte.byte]); a slice of the
      hex string at character offsets [2 + 2i] is the byte slice at [i].
    - Addresses, bytes32 hashes and uint values are [Z].  Enforcer addresses
      are compared with [toLowerCase()] in the source, which on 40-digit hex
      strings is comparison of the numeric value.  A value held as a number
      stands for a text viem's encoder accepts; where an address is a
      script input ([encodeSingleExecution]'s target, the recipient of the
      redemption script, the redeemers), it is kept as text and checked by
      [isAddress] (0x, 40 hex digits, lower case or the EIP-55 checksum).
    - [BigInt('0x' + s)] is [bigint_of_hex s]; it throws a [SyntaxError] when
      [s] is empty.
    - [Number(x)] of a non-negative BigInt is [to_number x]: the nearest IEEE
      double, ties to even (all values here are far below the overflow bound).
    - [Date.now()] is an input [now_ms] (a non-negative integer number of
      milliseconds); every function reads the clock once.
    - USDC amounts given as JS numbers are passed as their minor-unit value
      (what [parseUnits(amount.toString(), 6)] returns); a JS number is falsy
      exactly when it is absent or 0, which is [None] or [Some 0] here.
    - Error strings pushed onto [errors] are represented by constructors
      carrying the values the strings print. *)

From Stdlib Require Import ZArith List Lia Bool.
From Stdlib Require Import Strings.Ascii.
From Stdlib Require Import Strings.String.
From Stdlib Require Import Strings.Byte.
Import ListNotations.
Open Scope Z_scope.

(** ** JavaScript evaluation outcome: a value, or a thrown exception. *)

Inductive JsError : Type :=
| SyntaxError              (* BigInt('0x') *)
| IntegerOutOfRangeError   (* viem's encodePacked on an out-of-range uint *)
| InvalidAddressError.     (* viem's encodeAddress on a text isAddress rejects *)

Inductive Outcome (A : Type) : Type :=
| Returns (a : A)
| Throws (e : JsError).
Arguments Returns {A} a.
Arguments Throws {A} e.

Definition bind {A B} (m : Outcome A) (k : A -> Outcome B) : Outcome B :=
  match m with
  | Returns a => k a
  | Throws e => Throws e
  end.

Notation "'let*' x ':=' m 'in' k" := (bind m (fun x => k))
  (at level 200, x name, m at level 100, k at level 200).

(** ** Bytes *)

Definition byte_of_Z (z : Z) : byte :=
  match Byte.of_N (Z.to_N (z mod 256)) with
  | Some b => b
  | None => x00
  end.

Definition Z_of_byte (b : byte) : Z := Z.of_N (Byte.to_N b).

(** Big-endian, fixed width: the layout of [encodePacked] and of
    [padHex(numberToHex(x), {size})]. *)
Fixpoint be_bytes (n : nat) (x : Z) : list byte :=
  match n with
  | O => []
  | S n' => be_bytes n' (x / 256) ++ [byte_of_Z x]
  end.

(** Big-endian value of a byte list. *)
Definition be_value (l : list byte) : Z :=
  fold_left (fun acc b => acc * 256 + Z_of_byte b) l 0.

(** [BigInt('0x' + hex)]: throws on the empty digit string. *)
Definition bigint_of_hex (l : list byte) : Outcome Z :=
  match l with
  | [] => Throws SyntaxError
  | _ => Returns (be_value l)
  end.

(** [s.slice(a, b)] on the hex digits, in bytes. *)
Definition slice (a b : nat) (l : list byte) : list byte :=
  firstn (b - a) (skipn a l).

(** ** JS numbers *)

(** [Number(x)] for a BigInt [x]: round to 53 significant bits, ties to even. *)
Definition round_nonneg (x : Z) : Z :=
  if x <? 2 ^ 53 then x
  else
    let k := Z.log2 x - 52 in
    let q := x / 2 ^ k in
    let r := x mod 2 ^ k in
    let half := 2 ^ (k - 1) in
    let q' := if half <? r then q + 1
              else if r =? half then (if Z.even q then q else q + 1)
              else q in
    q' * 2 ^ k.

Definition to_number (x : Z) : Z :=
  if x <? 0 then - round_nonneg (- x) else round_nonneg x.

(** [Math.floor(Date.now() / 1000)] *)
Definition now_seconds (now_ms : Z) : Z := now_ms / 1000.

(** ** Data model *)

Record Caveat : Type := mkCaveat {
  enforcer : Z;
  terms : list byte;
  args : list byte
}.

Record Delegation : Type := mkDelegation {
  delegate : Z;
  delegator : Z;
  authority : Z;
  caveats : list Caveat;
  salt : Z;
  signature : list byte
}.

(** ** Constants (deployed addresses on Base Sepolia) *)

Definition ROOT_AUTHORITY : Z := 0.
(** Default of [process.env.USDC_ADDRESS || ...]. *)
Definition USDC_ADDRESS : Z := 0x036CbD53842c5426634e7929541eC2318f3dCF7e.
Definition USDC_DECIMALS : Z := 6.

Module DELEGATION_FRAMEWORK.
Definition TimestampEnforcer : Z :=
  0x1046bb45C8d673d4ea75321280DB34899413c069.
Definition ERC20TransferAmountEnforcer : Z :=
  0xf100b0819427117EcF76Ed94B358B1A5b5C6D2Fc.
Definition ValueLteEnforcer : Z :=
  0x92Bf12322527cAA612fd31a0e810472BBB106A8F.
Definition DelegationManager : Z :=
  0xdb9B1e94B5b69Df7e401DDbedE43491141047dB3.
Definition RedeemerEnforcer : Z :=
  0xE144b0b2618071B4E56f746313528a669c7E65c5.
Definition NonceEnforcer : Z :=
  0xDE4f2FAC4B3D87A1d9953Ca5FC09FCa7F366254f.
End DELEGATION_FRAMEWORK.

(** ** Caveat terms encoders *)

(** [encodePacked(types, values)] of a uint of [n] bytes: viem throws when the
    value does not fit. *)
Definition packed_uint (n : nat) (x : Z) : Outcome (list byte) :=
  if (0 <=? x) && (x <? 2 ^ (8 * Z.of_nat n)) then Returns (be_bytes n x)
  else Throws IntegerOutOfRangeError.

(** [encodeERC20TransferAmountTerms(tokenAddress, amount)] *)
Definition encodeERC20TransferAmountTerms (tokenAddress amount : Z)
  : Outcome (list byte) :=
  let* a := packed_uint 32 amount in
  Returns (be_bytes 20 tokenAddress ++ a).

(** [encodeTimestampTerms(timestamp, mode)]: mode 'before' is 0, any other
    mode string is 1. *)
Definition encodeTimestampTerms (timestamp : Z) (mode_before : bool)
  : Outcome (list byte) :=
  let modeValue := if mode_before then 0 else 1 in
  let* t := packed_uint 16 timestamp in
  let* m := packed_uint 16 modeValue in
  Returns (t ++ m).

(** [encodeValueLteTerms(maxValue)] *)
Definition encodeValueLteTerms (maxValue : Z) : list byte := be_bytes 32 maxValue.

(** ** EIP-712 hashing ([hashCaveat], [hashCaveatsArray], [getDelegationHash]) *)

Section Hashing.

(** viem's [keccak256] on raw bytes, giving a bytes32 value. *)
Variable keccak256 : list byte -> Z.

(** One static slot of [encodeAbiParameters] on a value held as a number:
      viem rejects a value that does not fit the declared type ([address]:
      20 bytes, [bytes32] and [uint256]: 32 bytes); a fitting value is
      left-padded to 32 bytes.  For an [address] or a [bytes32], viem is
      given a text and also checks the text itself ([isAddress] with the
      EIP-55 checksum; a [bytes32] text must hold exactly 32 bytes): here
      the number stands for a text that passes those checks, so a success
      of this function is a success of viem only on such texts.  The
      address check on texts is modelled below by [isAddress] and
      [abi_address_text], for the encoders whose addresses are script
      inputs. *)
Definition abi_slot (bytes_width : nat) (x : Z) : Outcome (list byte) :=
  if (0 <=? x) && (x <? 2 ^ (8 * Z.of_nat bytes_width)) then Returns (be_bytes 32 x)
  else Throws IntegerOutOfRangeError.

Definition abi_address := abi_slot 20.
Definition abi_bytes32 := abi_slot 32.
Definition abi_uint256 := abi_slot 32.

Definition DELEGATION_TYPEHASH : Z :=
  keccak256 (String.list_byte_of_string
    "Delegation(address delegate,address delegator,bytes32 authority,bytes32 caveatsHash,uint256 salt)"%string).

Definition CAVEAT_TYPEHASH : Z :=
  keccak256 (String.list_byte_of_string
    "Caveat(address enforcer,bytes32 termsHash)"%string).

(** [hashCaveat(caveat)] *)
Definition hashCaveat (caveat : Caveat) : Outcome Z :=
  let* w1 := abi_bytes32 CAVEAT_TYPEHASH in
  let* w2 := abi_address (enforcer caveat) in
  let* w3 := abi_bytes32 (keccak256 (terms caveat)) in
  Returns (keccak256 (w1 ++ w2 ++ w3)).

(** [caveats.map(c => hashCaveat(c))] *)
Fixpoint map_hashCaveat (cs : list Caveat) : Outcome (list Z) :=
  match cs with
  | [] => Returns []
  | c :: cs' =>
      let* h := hashCaveat c in
      let* hs := map_hashCaveat cs' in
      Returns (h :: hs)
  end.

(** [hashCaveatsArray(caveats)]: [concat] of the 32-byte hashes. *)
Definition hashCaveatsArray (cs : list Caveat) : Outcome Z :=
  let* caveatHashes := map_hashCaveat cs in
  Returns (keccak256 (List.concat (map (be_bytes 32) caveatHashes))).

(** [getDelegationHash(delegation)] *)
Definition getDelegationHash (delegation : Delegation) : Outcome Z :=
  let* caveatsHash := hashCaveatsArray (caveats delegation) in
  let* w1 := abi_bytes32 DELEGATION_TYPEHASH in
  let* w2 := abi_address (delegate delegation) in
  let* w3 := abi_address (delegator delegation) in
  let* w4 := abi_bytes32 (authority delegation) in
  let* w5 := abi_bytes32 caveatsHash in
  let* w6 := abi_uint256 (salt delegation) in
  Returns (keccak256 (w1 ++ w2 ++ w3 ++ w4 ++ w5 ++ w6)).

(** [hashDelegation] (deprecated alias) *)
Definition hashDelegation := getDelegationHash.

End Hashing.

(** ** Delegation Builder ([buildDelegation]) *)

(** JS truthiness of an optional number. *)
Definition truthy (o : option Z) : bool :=
  match o with
  | Some z => negb (z =? 0)
  | None => false
  end.

Record BuildParams : Type := mkBuildParams {
  p_delegator : Z;
  p_delegate : Z;
  p_authority : option Z;        (* defaults to ROOT_AUTHORITY *)
  p_amount : option Z;           (* minor units *)
  p_expirySeconds : option Z
}.

Definition buildDelegation (params : BuildParams) (now_ms : Z) : Outcome Delegation :=
  let authority := match p_authority params with
                   | Some a => a
                   | None => ROOT_AUTHORITY
                   end in
  (* 1. ValueLteEnforcer(0) *)
  let caveats1 := [mkCaveat DELEGATION_FRAMEWORK.ValueLteEnforcer
                            (encodeValueLteTerms 0) []] in
  (* 2. ERC20TransferAmountEnforcer *)
  let* caveats2 :=
    match p_amount params with
    | Some amountWei =>
        if truthy (p_amount params) then
          let* t := encodeERC20TransferAmountTerms USDC_ADDRESS amountWei in
          Returns (caveats1 ++ [mkCaveat DELEGATION_FRAMEWORK.ERC20TransferAmountEnforcer t []])
        else Returns caveats1
    | None => Returns caveats1
    end in
  (* 3. TimestampEnforcer, mode 'before' *)
  let* caveats3 :=
    match p_expirySeconds params with
    | Some expirySeconds =>
        if truthy (p_expirySeconds params) then
          let expiryTimestamp := to_number (now_seconds now_ms + expirySeconds) in
          let* t := encodeTimestampTerms expiryTimestamp true in
          Returns (caveats2 ++ [mkCaveat DELEGATION_FRAMEWORK.TimestampEnforcer t []])
        else Returns caveats2
    | None => Returns caveats2
    end in
  Returns {| delegate := p_delegate params;
             delegator := p_delegator params;
             authority := authority;
             caveats := caveats3;
             salt := now_ms;            (* BigInt(Date.now()) *)
             signature := [] |}.        (* '0x' *)

(** ** Validation results *)

Record ValidationResult (E : Type) : Type := mkResult {
  valid : bool;
  errors : list E
}.
Arguments mkResult {E} valid errors.
Arguments valid {E} _.
Arguments errors {E} _.

Definition result_of {E} (errs : list E) : ValidationResult E :=
  mkResult (Nat.eqb (List.length errs) 0) errs.

(** [caveats.find(c => c.enforcer.toLowerCase() === enforcer.toLowerCase())] *)
Definition findCaveat (enf : Z) (cs : list Caveat) : option Caveat :=
  find (fun c => enforcer c =? enf) cs.

(** ** Scope Validator ([validateSubDelegationScope]) *)

Record SubDelegationParams : Type := mkSubParams {
  s_amount : option Z;           (* minor units *)
  s_expirySeconds : option Z
}.

(** The two strings pushed onto [errors]. *)
Inductive ScopeError : Type :=
| SubAmountExceedsParentScope (amount : Z)
| SubExpiryExceedsParentExpiry.

(** The "Check amount" block. *)
Definition checkAmountScope (parentDelegation : Delegation)
    (subDelegationParams : SubDelegationParams) (errors : list ScopeError)
    : Outcome (list ScopeError) :=
  let parentAmountCaveat :=
    findCaveat DELEGATION_FRAMEWORK.ERC20TransferAmountEnforcer
               (caveats parentDelegation) in
  match parentAmountCaveat, s_amount subDelegationParams with
  | Some c, Some subAmount =>
      if truthy (s_amount subDelegationParams) then
        let* parentAmount := bigint_of_hex (skipn 20 (terms c)) in
        Returns (if parentAmount <? subAmount
                 then errors ++ [SubAmountExceedsParentScope subAmount]
                 else errors)
      else Returns errors
  | _, _ => Returns errors
  end.

(** The "Check expiry" block. *)
Definition checkExpiryScope (parentDelegation : Delegation)
    (subDelegationParams : SubDelegationParams) (now_ms : Z)
    (errors : list ScopeError) : Outcome (list ScopeError) :=
  let parentExpiryCaveat :=
    findCaveat DELEGATION_FRAMEWORK.TimestampEnforcer
               (caveats parentDelegation) in
  match parentExpiryCaveat, s_expirySeconds subDelegationParams with
  | Some c, Some expirySeconds =>
      if truthy (s_expirySeconds subDelegationParams) then
        let* threshold := bigint_of_hex (slice 0 16 (terms c)) in
        let parentExpiry := to_number threshold in
        let subExpiry := to_number (now_seconds now_ms + expirySeconds) in
        Returns (if parentExpiry <? subExpiry
                 then errors ++ [SubExpiryExceedsParentExpiry]
                 else errors)
      else Returns errors
  | _, _ => Returns errors
  end.

Definition validateSubDelegationScope (parentDelegation : Delegation)
    (subDelegationParams : SubDelegationParams) (now_ms : Z)
    : Outcome (ValidationResult ScopeError) :=
  let errors : list ScopeError := [] in
  let* errors1 := checkAmountScope parentDelegation subDelegationParams errors in
  let* errors2 := checkExpiryScope parentDelegation subDelegationParams now_ms errors1 in
  Returns (result_of errors2).

(** ** Transfer Validator ([validateTransfer]) *)

Inductive TransferError : Type :=
| TransferAmountExceedsLimit (maxAmount : Z)
| DelegationHasExpired.

(** The body of the [for (const caveat of delegation.caveats)] loop. *)
Definition checkCaveat (amountWei now : Z) (errors : list TransferError)
    (caveat : Caveat) : Outcome (list TransferError) :=
  let* errors1 :=
    if enforcer caveat =? DELEGATION_FRAMEWORK.ERC20TransferAmountEnforcer then
      let* maxAmount := bigint_of_hex (skipn 20 (terms caveat)) in
      Returns (if maxAmount <? amountWei
               then errors ++ [TransferAmountExceedsLimit maxAmount]
               else errors)
    else Returns errors in
  if enforcer caveat =? DELEGATION_FRAMEWORK.TimestampEnforcer then
    let* threshold := bigint_of_hex (slice 0 16 (terms caveat)) in
    let* mode := bigint_of_hex (slice 16 32 (terms caveat)) in
    Returns (if (to_number mode =? 0) && (to_number threshold <=? now)
             then errors1 ++ [DelegationHasExpired]
             else errors1)
  else Returns errors1.

Fixpoint checkCaveats (amountWei now : Z) (errors : list TransferError)
    (cs : list Caveat) : Outcome (list TransferError) :=
  match cs with
  | [] => Returns errors
  | c :: cs' =>
      let* errors' := checkCaveat amountWei now errors c in
      checkCaveats amountWei now errors' cs'
  end.

(** [validateTransfer(delegation, to, amount)]; [amountWei] is
    [parseUnits(amount.toString(), USDC_DECIMALS)]. *)
Definition validateTransfer (delegation : Delegation) (to : Z) (amountWei : Z)
    (now_ms : Z) : Outcome (ValidationResult TransferError) :=
  let now := now_seconds now_ms in
  let* errors := checkCaveats amountWei now [] (caveats delegation) in
  Returns (result_of errors).

(** ** Chain Assembler *)

(** The object literal built for each delegation of the chain
    ([salt] is [d.salt.toString()], [args] is [c.args || '0x']). *)
Record EncodedDelegation : Type := mkEncoded {
  e_delegate : Z;
  e_delegator : Z;
  e_authority : Z;
  e_caveats : list Caveat;
  e_salt : Z;
  e_signature : list byte
}.

Definition encodeDelegationEntry (d : Delegation) : EncodedDelegation :=
  {| e_delegate := delegate d;
     e_delegator := delegator d;
     e_authority := authority d;
     e_caveats := map (fun c => mkCaveat (enforcer c) (terms c) (args c)) (caveats d);
     e_salt := salt d;
     e_signature := signature d |}.

(** The text returned: [JSON.stringify(encoded)] in the library, and
    ['0x' + hex(JSON.stringify(encoded))] in the execution script. *)
Inductive PermissionContext : Type :=
| JsonText (encoded : list EncodedDelegation)
| HexOfJsonText (encoded : list EncodedDelegation).

(** [encodePermissionContext(delegationChain)] (scripts/lib/delegation.mjs) *)
Definition encodePermissionContext (delegationChain : list Delegation)
    : Outcome PermissionContext :=
  Returns (JsonText (map encodeDelegationEntry delegationChain)).

(** [buildPermissionContext(delegationChain)] (the redemption script) *)
Definition buildPermissionContext (delegationChain : list Delegation)
    : Outcome PermissionContext :=
  Returns (HexOfJsonText (map encodeDelegationEntry delegationChain)).

(** Chain integrity, leaf to root: every link's [authority] is the
    delegation hash of the next record. *)
Fixpoint chain_linked (keccak256 : list byte -> Z) (chain : list Delegation) : Prop :=
  match chain with
  | d :: ((p :: _) as rest) =>
      getDelegationHash keccak256 p = Returns (authority d) /\ chain_linked keccak256 rest
  | _ => True
  end.

(** ** Delegation updates used in statements *)

(** The same delegation with another caveat list. *)
Definition with_caveats (d : Delegation) (cs : list Caveat) : Delegation :=
  mkDelegation (delegate d) (delegator d) (authority d) cs (salt d) (signature d).

(** Rewrite the token identifier (the first 20 bytes) of an amount-limit
    caveat, keeping the rest of its terms. *)
Definition set_amount_token (tok : Z) (c : Caveat) : Caveat :=
  if enforcer c =? DELEGATION_FRAMEWORK.ERC20TransferAmountEnforcer
  then mkCaveat (enforcer c) (be_bytes 20 tok ++ skipn 20 (terms c)) (args c)
  else c.

(** ** Durations ([parseDuration]) *)

(** A JS number as [parseInt] and [*] produce it here: a non-negative
    integral double, [Infinity] or [NaN]. *)
Inductive JsNumber : Type :=
| Finite (z : Z)
| PosInfinity
| NaN.

(** A non-negative integer rounded to the nearest double; a rounded value
    of 2^1024 or more is [Infinity]. *)
Definition number_of_nonneg (x : Z) : JsNumber :=
  let r := to_number x in
  if r <? 2 ^ 1024 then Finite r else PosInfinity.

(** [n * m] for a positive integer [m]: the exact product, rounded. *)
Definition mul_number (n : JsNumber) (m : Z) : JsNumber :=
  match n with
  | Finite z => number_of_nonneg (z * m)
  | PosInfinity => PosInfinity
  | NaN => NaN
  end.

(** [\d] (the regular expression has no [u] flag): an ASCII digit. *)
Definition is_digit (c : ascii) : bool :=
  (48 <=? nat_of_ascii c)%nat && (nat_of_ascii c <=? 57)%nat.

Definition digit_value (c : ascii) : Z := Z.of_nat (nat_of_ascii c) - 48.

(** The decimal value of a digit string. *)
Definition digits_value (ds : list ascii) : Z :=
  fold_left (fun acc c => acc * 10 + digit_value c) ds 0.

(** [parseInt(match[1])] on a digit string: its decimal value, correctly
    rounded to a double (V8's decimal conversion). *)
Definition parseInt_digits (ds : list ascii) : JsNumber :=
  number_of_nonneg (digits_value ds).

(** [multipliers[unit]] for [{ s: 1, m: 60, h: 3600, d: 86400 }]; [None] is
    [undefined]. *)
Definition multipliers (unit : ascii) : option Z :=
  if Ascii.eqb unit "s" then Some 1
  else if Ascii.eqb unit "m" then Some 60
  else if Ascii.eqb unit "h" then Some 3600
  else if Ascii.eqb unit "d" then Some 86400
  else None.

(** [duration.match(/^(\d+)(s|m|h|d)$/)]: the groups [match[1]] and
    [match[2]], or [null].  The last character is the unit and everything
    before it is the digit group. *)
Definition duration_match (duration : string) : option (list ascii * ascii) :=
  match rev (list_ascii_of_string duration) with
  | unit :: rdigits =>
      let digits := rev rdigits in
      if negb (Nat.eqb (List.length digits) 0) && forallb is_digit digits
         && (Ascii.eqb unit "s" || Ascii.eqb unit "m" || Ascii.eqb unit "h"
             || Ascii.eqb unit "d")
      then Some (digits, unit) else None
  | [] => None
  end.

Inductive DurationResult : Type :=
| Seconds (value : JsNumber)
| InvalidDurationFormat.  (* throw new Error('Invalid duration format. ...') *)

(** [parseDuration(duration)] *)
Definition parseDuration (duration : string) : DurationResult :=
  match duration_match duration with
  | None => InvalidDurationFormat
  | Some (digits, unit) =>
      let value := parseInt_digits digits in
      match multipliers unit with
      | Some m => Seconds (mul_number value m)
      | None => Seconds NaN                    (* value * undefined *)
      end
  end.

(** ** The creation scripts, up to the signature *)

(** The [expirySeconds] a parsed duration gives [buildDelegation] and
    [validateSubDelegationScope]: [NaN] is falsy, like an absent value. *)
Definition expiry_param (value : JsNumber) : option Z :=
  match value with
  | Finite e => Some e
  | _ => None
  end.

(** [create-delegation.mjs]:
    [buildDelegation({ delegator: account.address, delegate: argv.delegate,
    amount: argv.amount, expirySeconds: parseDuration(argv.expiry) })].
    [None]: the script stops on an exception (an invalid duration, an
    encoding error, or an expiry of [Infinity], on which [BigInt] throws in
    [encodeTimestampTerms]). *)
Definition createDelegation (account delegate amount : Z) (expiry : string)
    (now_ms : Z) : option Delegation :=
  match parseDuration expiry with
  | InvalidDurationFormat => None
  | Seconds PosInfinity => None
  | Seconds value =>
      match buildDelegation
              (mkBuildParams account delegate None (Some amount) (expiry_param value))
              now_ms with
      | Returns d => Some d
      | Throws _ => None
      end
  end.

(** [create-subdelegation.mjs]: the delegate check, the scope check (clock
    reading [now_validate]), then [buildDelegation] with the parent's hash as
    [authority] (clock reading [now_build]).  [None]: the script exits
    ([process.exit(1)]) or stops on an exception.  An expiry of [Infinity]
    either fails the scope check or makes [buildDelegation] throw. *)
Definition createSubDelegation (keccak256 : list byte -> Z)
    (parentDelegation : Delegation) (account subdelegate amount : Z)
    (expiry : string) (now_validate now_build : Z) : option Delegation :=
  if negb (account =? delegate parentDelegation) then None
  else
  match parseDuration expiry with
  | InvalidDurationFormat => None
  | Seconds PosInfinity => None
  | Seconds value =>
      let subDelegationParams := mkSubParams (Some amount) (expiry_param value) in
      match validateSubDelegationScope parentDelegation subDelegationParams
              now_validate with
      | Throws _ => None
      | Returns validation =>
          if negb (valid validation) then None
          else
          match hashDelegation keccak256 parentDelegation with
          | Throws _ => None
          | Returns parentHash =>
              match buildDelegation
                      (mkBuildParams account subdelegate (Some parentHash)
                         (Some amount) (expiry_param value)) now_build with
              | Returns d => Some d
              | Throws _ => None
              end
          end
      end
  end.

(** ** The scope report ([check-scope.mjs]) *)

(** The key [Object.entries(DELEGATION_FRAMEWORK).find(...)] gives, or
    ['Unknown']. *)
Inductive EnforcerName : Type :=
| DelegationManagerName
| ERC20TransferAmountEnforcerName
| TimestampEnforcerName
| ValueLteEnforcerName
| RedeemerEnforcerName
| NonceEnforcerName
| UnknownName.

Definition enforcerName (enf : Z) : EnforcerName :=
  if enf =? DELEGATION_FRAMEWORK.DelegationManager then DelegationManagerName
  else if enf =? DELEGATION_FRAMEWORK.ERC20TransferAmountEnforcer
  then ERC20TransferAmountEnforcerName
  else if enf =? DELEGATION_FRAMEWORK.TimestampEnforcer then TimestampEnforcerName
  else if enf =? DELEGATION_FRAMEWORK.ValueLteEnforcer then ValueLteEnforcerName
  else if enf =? DELEGATION_FRAMEWORK.RedeemerEnforcer then RedeemerEnforcerName
  else if enf =? DELEGATION_FRAMEWORK.NonceEnforcer then NonceEnforcerName
  else UnknownName.

(** What the report's [try] block can throw: a [BigInt] error, or the
    [RangeError] of [toISOString()] on an invalid date. *)
Inductive ReportError : Type :=
| DecodeError (e : JsError)
| InvalidTimeValue.

(** The lines printed for one caveat, with the values they print. *)
Inductive ReportLine : Type :=
| HeaderLine (index : nat) (name : EnforcerName)
| ContractLine (enf : Z)
| MaxAmountLine (amount : Z)
| TokenLine (token : list byte)
| TransferMethodOnlyLine
| StatusActiveLine
| ValidAfterLine (threshold : Z)
| NotYetActiveLine (remaining : Z)
| StartTimePassedLine
| ExpiresLine (threshold : Z)
| ValidRemainingLine (remaining : Z)
| ExpiredAgoLine (remaining : Z)
| NoTimeConstraintsLine
| MaxEthZeroLine
| NoEthPurposeLine
| MaxEthLine (maxValue : Z)
| RestrictsRedeemerLine
| CustomEnforcerLine
| TermsLine (t : list byte)
| CouldNotDecodeLine
| RawTermsLine (t : list byte)
| ErrorMessageLine (e : ReportError)
| ArgsLine (a : list byte)
| BlankLine.

(** Lines printed so far, and the exception that stopped the block, if any. *)
Definition Printed : Type := (list ReportLine * option ReportError)%type.

Definition out (ls : list ReportLine) : Printed := (ls, None).
Definition raise (e : ReportError) : Printed := ([], Some e).

(** Run [k] after [p] unless [p] threw. *)
Definition then_print (p k : Printed) : Printed :=
  match p with
  | (l, None) => let (l2, e) := k in (l ++ l2, e)
  | (l, Some e) => (l, Some e)
  end.

(** [new Date(t * 1000).toISOString()] does not throw: the product is within
    the +-8.64e15 ms range of a Date. *)
Definition iso_date_ok (t : Z) : bool :=
  Z.abs (to_number (t * 1000)) <=? 8640000000000000.

(** The [case 'TimestampEnforcer'] block: it reads the terms as
    (afterThreshold, beforeThreshold). *)
Definition timestampReport (terms : list byte) (now : Z) : Printed :=
  match bigint_of_hex (slice 0 16 terms) with
  | Throws e => raise (DecodeError e)
  | Returns a =>
  match bigint_of_hex (slice 16 32 terms) with
  | Throws e => raise (DecodeError e)
  | Returns b =>
      let afterThreshold := to_number a in
      let beforeThreshold := to_number b in
      then_print
        (if 0 <? afterThreshold then
           if iso_date_ok afterThreshold then
             out [ValidAfterLine afterThreshold;
                  if now <=? afterThreshold
                  then NotYetActiveLine (to_number (afterThreshold - now))
                  else StartTimePassedLine]
           else raise InvalidTimeValue
         else out [])
        (then_print
           (if 0 <? beforeThreshold then
              if iso_date_ok beforeThreshold then
                let remaining := to_number (beforeThreshold - now) in
                out [ExpiresLine beforeThreshold;
                     if 0 <? remaining then ValidRemainingLine remaining
                     else ExpiredAgoLine remaining]
              else raise InvalidTimeValue
            else out [])
           (out (if (afterThreshold =? 0) && (beforeThreshold =? 0)
                 then [NoTimeConstraintsLine] else [])))
  end
  end.

(** The [switch (enforcerName)] inside the [try]. *)
Definition decodeReport (verbose : bool) (name : EnforcerName) (terms : list byte)
    (now : Z) : Printed :=
  match name with
  | ERC20TransferAmountEnforcerName =>
      let token := slice 0 20 terms in
      match bigint_of_hex (skipn 20 terms) with
      | Throws e => raise (DecodeError e)
      | Returns amount =>
          out [MaxAmountLine amount; TokenLine token; TransferMethodOnlyLine;
               StatusActiveLine]
      end
  | TimestampEnforcerName => timestampReport terms now
  | ValueLteEnforcerName =>
      match bigint_of_hex terms with
      | Throws e => raise (DecodeError e)
      | Returns maxValue =>
          if maxValue =? 0 then out [MaxEthZeroLine; NoEthPurposeLine; StatusActiveLine]
          else out [MaxEthLine maxValue; StatusActiveLine]
      end
  | RedeemerEnforcerName => out [RestrictsRedeemerLine; StatusActiveLine]
  | _ => out (CustomEnforcerLine :: (if verbose then [TermsLine terms] else []))
  end.

(** One iteration of the caveat loop, [i] counting from 0. *)
Definition caveatReport (verbose : bool) (now : Z) (i : nat) (caveat : Caveat)
    : list ReportLine :=
  let name := enforcerName (enforcer caveat) in
  let (printed, exn) := decodeReport verbose name (terms caveat) now in
  [HeaderLine (S i) name; ContractLine (enforcer caveat)] ++ printed ++
  match exn with
  | None => []
  | Some e => CouldNotDecodeLine ::
                (if verbose then [RawTermsLine (terms caveat); ErrorMessageLine e] else [])
  end ++
  (match args caveat with [] => [] | a => [ArgsLine a] end) ++
  [BlankLine].

(** The three [some(...)] tests of the security summary: amount limit,
    expiry time, ETH prevention. *)
Definition has_enforcer (enf : Z) (d : Delegation) : bool :=
  existsb (fun c => enforcer c =? enf) (caveats d).

Definition securitySummary (d : Delegation) : bool * bool * bool :=
  (has_enforcer DELEGATION_FRAMEWORK.ERC20TransferAmountEnforcer d,
   has_enforcer DELEGATION_FRAMEWORK.TimestampEnforcer d,
   has_enforcer DELEGATION_FRAMEWORK.ValueLteEnforcer d).

(** ** ABI encodings of the execution helpers *)

(** A dynamic [bytes] value after the head: its length in a 32-byte slot,
    then the bytes right-padded with zeros to a multiple of 32. *)
Definition abi_bytes_tail (data : list byte) : list byte :=
  let n := List.length data in
  be_bytes 32 (Z.of_nat n) ++ data ++ repeat x00 ((n + 31) / 32 * 32 - n).

(** [encodeSingleExecution(target, value, data)]: [encodeAbiParameters] of
    [address target, uint256 value, bytes data]; the head slot of [data]
    holds its offset, 96. *)
Definition encodeSingleExecution (target value : Z) (data : list byte)
    : Outcome (list byte) :=
  let* w1 := abi_address target in
  let* w2 := abi_uint256 value in
  Returns (w1 ++ w2 ++ be_bytes 32 96 ++ abi_bytes_tail data).

(** [transfer(address,uint256)]'s selector, 0xa9059cbb. *)
Definition TRANSFER_SELECTOR : list byte := [xa9; x05; x9c; xbb].

(** [encodeFunctionData({ abi: USDC_ABI, functionName: 'transfer', args: [to, amount] })] *)
Definition encodeTransferCalldata (to amount : Z) : Outcome (list byte) :=
  let* w1 := abi_address to in
  let* w2 := abi_uint256 amount in
  Returns (TRANSFER_SELECTOR ++ w1 ++ w2).


(** The address slots of an [address[]] value. *)
Fixpoint abi_addresses (xs : list Z) : Outcome (list byte) :=
  match xs with
  | [] => Returns []
  | x :: xs' =>
      let* w := abi_address x in
      let* ws := abi_addresses xs' in
      Returns (w ++ ws)
  end.

(** [encodeRedeemerTerms(allowedRedeemers)]: [encodeAbiParameters] of one
    [address[]]: its offset (32), its length, then the elements. *)
Definition encodeRedeemerTerms (allowedRedeemers : list Z) : Outcome (list byte) :=
  let* elems := abi_addresses allowedRedeemers in
  Returns (be_bytes 32 32 ++ be_bytes 32 (Z.of_nat (List.length allowedRedeemers)) ++ elems).

(** ** Address texts: viem's [isAddress] *)

Definition is_hex_digit (c : ascii) : bool :=
  let n := nat_of_ascii c in
  (Nat.leb 48 n && Nat.leb n 57) || (Nat.leb 65 n && Nat.leb n 70) ||
  (Nat.leb 97 n && Nat.leb n 102).

Definition hex_digit_value (c : ascii) : Z :=
  let n := Z.of_nat (nat_of_ascii c) in
  if n <=? 57 then n - 48 else if n <=? 70 then n - 55 else n - 87.

(** Value of a string of hex digits. *)
Definition hex_value (ds : list ascii) : Z :=
  fold_left (fun acc c => acc * 16 + hex_digit_value c) ds 0.

(** [toLowerCase()] and [toUpperCase()] on ASCII characters. *)
Definition to_lower (c : ascii) : ascii :=
  let n := nat_of_ascii c in
  if Nat.leb 65 n && Nat.leb n 90 then ascii_of_nat (n + 32) else c.

Definition to_upper (c : ascii) : ascii :=
  let n := nat_of_ascii c in
  if Nat.leb 97 n && Nat.leb n 122 then ascii_of_nat (n - 32) else c.

(** Nibble [i] (from the most significant) of a 32-byte hash: in viem,
    [hash[i >> 1] >> 4] for even [i], [hash[i >> 1] & 0x0f] for odd [i]. *)
Definition hash_nibble (hash : Z) (i : nat) : Z :=
  Z.land (Z.shiftr hash (4 * (63 - Z.of_nat i))) 15.

(** The loop of [checksumAddress]: digit [i] is upper-cased when nibble
    [i] of the hash is at least 8. *)
Fixpoint checksum_chars (hash : Z) (i : nat) (cs : list ascii) : list ascii :=
  match cs with
  | [] => []
  | c :: cs' =>
      (if 8 <=? hash_nibble hash i then to_upper c else c) :: checksum_chars hash (S i) cs'
  end.

(** viem's [checksumAddress(address)] (no chain id), on the digits after
    "0x": the hash is [keccak256(stringToBytes(hexAddress))] of the
    lower-cased digits. *)
Definition checksumAddress (keccak256 : list byte -> Z) (digits : list ascii)
    : list ascii :=
  let hexAddress := map to_lower digits in
  let hash := keccak256 (map byte_of_ascii hexAddress) in
  checksum_chars hash 0 hexAddress.

Definition ascii_list_eqb (a b : list ascii) : bool :=
  String.eqb (string_of_list_ascii a) (string_of_list_ascii b).

(** viem's [isAddress(address)] (strict, the default): the text matches
    [/^0x[a-fA-F0-9]{40}$/], and it is all lower case or equal to its
    checksummed form. *)
Definition isAddress (keccak256 : list byte -> Z) (address : string) : bool :=
  match list_ascii_of_string address with
  | "0"%char :: "x"%char :: ds =>
      Nat.eqb (List.length ds) 40 && forallb is_hex_digit ds &&
      (ascii_list_eqb (map to_lower ds) ds ||
       ascii_list_eqb (checksumAddress keccak256 ds) ds)
  | _ => false
  end.

(** The digits of an address text after "0x". *)
Definition address_digits (address : string) : list ascii :=
  skipn 2 (list_ascii_of_string address).

(** viem's [encodeAddress] on a text: [InvalidAddressError] unless
    [isAddress] accepts it; then the text's value is padded to 32 bytes
    ([padHex(value.toLowerCase())]). *)
Definition abi_address_text (keccak256 : list byte -> Z) (address : string) : Outcome Z :=
  if isAddress keccak256 address then Returns (hex_value (address_digits address))
  else Throws InvalidAddressError.

(** [encodeSingleExecution(target, value, data)] with [target] given as
    the text the caller passes. *)
Definition encodeSingleExecution_of_text (keccak256 : list byte -> Z) (target : string)
    (value : Z) (data : list byte) : Outcome (list byte) :=
  let* t := abi_address_text keccak256 target in
  encodeSingleExecution t value data.

(** [encodeFunctionData] of [transfer(to, amount)] with [to] given as text. *)
Definition encodeTransferCalldata_of_text (keccak256 : list byte -> Z) (to : string)
    (amount : Z) : Outcome (list byte) :=
  let* t := abi_address_text keccak256 to in
  encodeTransferCalldata t amount.

(** Default of [process.env.USDC_ADDRESS || ...], as text. *)
Definition USDC_ADDRESS_TEXT : string := "0x036CbD53842c5426634e7929541eC2318f3dCF7e".

(** The redemption script's [executionCallData]:
    [encodeSingleExecution(USDC_ADDRESS, 0n, transferCalldata)], with
    [transferCalldata] the [transfer(argv.to, amount)] call data. *)
Definition executionCallData (keccak256 : list byte -> Z) (to : string) (amountWei : Z)
    : Outcome (list byte) :=
  let* transferCalldata := encodeTransferCalldata_of_text keccak256 to amountWei in
  encodeSingleExecution_of_text keccak256 USDC_ADDRESS_TEXT 0 transferCalldata.

(** The elements of an [address[]] given as texts, encoded in order. *)
Fixpoint addresses_of_text (keccak256 : list byte -> Z) (xs : list string)
    : Outcome (list Z) :=
  match xs with
  | [] => Returns []
  | x :: xs' =>
      let* a := abi_address_text keccak256 x in
      let* as' := addresses_of_text keccak256 xs' in
      Returns (a :: as')
  end.

(** [encodeRedeemerTerms(allowedRedeemers)] on the address texts it is
    given. *)
Definition encodeRedeemerTerms_of_text (keccak256 : list byte -> Z)
    (allowedRedeemers : list string) : Outcome (list byte) :=
  let* xs := addresses_of_text keccak256 allowedRedeemers in
  encodeRedeemerTerms xs.

(** ** The caveats [buildDelegation] adds, written out *)

Definition built_amount_caveats (amount : option Z) : list Caveat :=
  match amount with
  | Some a =>
      if truthy amount
      then [mkCaveat DELEGATION_FRAMEWORK.ERC20TransferAmountEnforcer
              (be_bytes 20 USDC_ADDRESS ++ be_bytes 32 a) []]
      else []
  | None => []
  end.

Definition built_expiry_caveats (expirySeconds : option Z) (now_ms : Z) : list Caveat :=
  match expirySeconds with
  | Some e =>
      if truthy expirySeconds
      then [mkCaveat DELEGATION_FRAMEWORK.TimestampEnforcer
              (be_bytes 16 (to_number (now_seconds now_ms + e)) ++ be_bytes 16 0) []]
      else []
  | None => []
  end.

(** ** The display of a delegation ([formatDelegation]) *)

(** The lines [formatDelegation] pushes, with the values they print
    ([formatUnits] and [toISOString] are left as the values they format). *)
Inductive FormatLine : Type :=
| DelegatorFmt (a : Z)
| DelegateFmt (a : Z)
| AuthorityRootFmt
| AuthorityPrefixFmt (prefix : list byte)   (* authority.slice(0, 18) *)
| SaltFmt (s : Z)
| CaveatCountFmt (n : nat)
| EnforcerFmt (name : EnforcerName)
| TokenFmt (token : list byte)
| AmountFmt (amount : Z)
| ExpiresFmt (threshold : Z)
| ValidAfterFmt (threshold : Z)
| MaxEthZeroFmt
| MaxEthFmt (maxValue : Z)
| TermsPrefixFmt (prefix : list byte)       (* caveat.terms.slice(0, 20) *)
| HashFmt (h : Z)
| SignedFmt.

(** The [try] block of the caveat loop; [None] when it throws. *)
Definition formatDecode (name : EnforcerName) (terms : list byte)
    : option (list FormatLine) :=
  match name with
  | ERC20TransferAmountEnforcerName =>
      let token := slice 0 20 terms in
      match bigint_of_hex (skipn 20 terms) with
      | Throws _ => None
      | Returns amount => Some [TokenFmt token; AmountFmt amount]
      end
  | TimestampEnforcerName =>
      match bigint_of_hex (slice 0 16 terms) with
      | Throws _ => None
      | Returns t =>
      match bigint_of_hex (slice 16 32 terms) with
      | Throws _ => None
      | Returns m =>
          let threshold := to_number t in
          let mode := to_number m in
          if iso_date_ok threshold
          then Some [if mode =? 0 then ExpiresFmt threshold else ValidAfterFmt threshold]
          else None
      end
      end
  | ValueLteEnforcerName =>
      match bigint_of_hex terms with
      | Throws _ => None
      | Returns maxValue =>
          Some [if maxValue =? 0 then MaxEthZeroFmt else MaxEthFmt maxValue]
      end
  | _ => Some []
  end.

(** One iteration of the caveat loop: the name, then the decoded lines or,
    on an exception, the first 20 characters of the terms ("0x" and 9
    bytes). *)
Definition formatCaveat (caveat : Caveat) : list FormatLine :=
  let name := enforcerName (enforcer caveat) in
  EnforcerFmt name ::
  match formatDecode name (terms caveat) with
  | Some ls => ls
  | None => [TermsPrefixFmt (firstn 9 (terms caveat))]
  end.

(** [formatDelegation(delegation)]; the lines before [join('\n')].  The hash
    is computed outside the [try]: its exception propagates. *)
Definition formatDelegation (keccak256 : list byte -> Z) (delegation : Delegation)
    : Outcome (list FormatLine) :=
  let header :=
    [DelegatorFmt (delegator delegation); DelegateFmt (delegate delegation);
     if authority delegation =? ROOT_AUTHORITY then AuthorityRootFmt
     else AuthorityPrefixFmt (firstn 8 (be_bytes 32 (authority delegation)));
     SaltFmt (salt delegation);
     CaveatCountFmt (List.length (caveats delegation))] in
  let body := flat_map formatCaveat (caveats delegation) in
  let* h := getDelegationHash keccak256 delegation in
  Returns (header ++ body ++ [HashFmt h] ++
           match signature delegation with [] => [] | _ => [SignedFmt] end).

(** ** Sample inputs *)

Module Sample.
Definition alice : Z := 0x1111111111111111111111111111111111111111.
Definition bob : Z := 0x2222222222222222222222222222222222222222.
Definition carol : Z := 0x3333333333333333333333333333333333333333.
(** Some ERC-20 token other than USDC. *)
Definition other_token : Z := 0x4444444444444444444444444444444444444444.
(** A [Date.now()] reading (2025-10-09). *)
Definition now_ms : Z := 1760000000000.
(** A stand-in for keccak256 (any function works for the statements that
      quantify over the hash). *)
Definition keccak256 (l : list byte) : Z := be_value l mod 2 ^ 256.
(** An amount-limit caveat on USDC, as [encodeERC20TransferAmountTerms]
      lays it out. *)
Definition usdc_limit (limit : Z) : Caveat :=
  mkCaveat DELEGATION_FRAMEWORK.ERC20TransferAmountEnforcer
           (be_bytes 20 USDC_ADDRESS ++ be_bytes 32 limit) [].
(** A timestamp caveat in mode 'before' (mode word 0). *)
Definition before (threshold : Z) : Caveat :=
  mkCaveat DELEGATION_FRAMEWORK.TimestampEnforcer
           (be_bytes 16 threshold ++ be_bytes 16 0) [].
Definition root_delegation (cs : list Caveat) : Delegation :=
  mkDelegation bob alice ROOT_AUTHORITY cs now_ms [].
End Sample.

(** * Properties *)

(** ** Bytes and encodings *)

Lemma Z_of_byte_of_Z (z : Z) : Z_of_byte (byte_of_Z z) = z mod 256.
Proof.
  unfold byte_of_Z, Z_of_byte.
  assert (Hr : 0 <= z mod 256 < 256) by (apply Z.mod_pos_bound; lia).
  destruct (Byte.of_N (Z.to_N (z mod 256))) as [b|] eqn:E.
  - apply Byte.to_of_N in E. rewrite E. apply Z2N.id. lia.
  - apply Byte.of_N_None_iff in E. lia.
Qed.

Lemma length_be_bytes (n : nat) (x : Z) : List.length (be_bytes n x) = n.
Proof.
  revert x; induction n as [|n IH]; intros x; simpl; [reflexivity|].
  rewrite length_app, IH; simpl; lia.
Qed.

Lemma be_value_snoc (l : list byte) (b : byte) :
  be_value (l ++ [b]) = be_value l * 256 + Z_of_byte b.
Proof. unfold be_value. rewrite fold_left_app. reflexivity. Qed.

Lemma be_value_be_bytes (n : nat) (x : Z) :
  be_value (be_bytes n x) = x mod 256 ^ Z.of_nat n.
Proof.
  revert x; induction n as [|n IH]; intros x.
  - simpl. rewrite Z.mod_1_r. reflexivity.
  - cbn [be_bytes]. rewrite be_value_snoc, IH, Z_of_byte_of_Z.
    rewrite Nat2Z.inj_succ, Z.pow_succ_r by lia.
    rewrite Z.rem_mul_r by (try lia; apply Z.pow_pos_nonneg; lia).
    ring.
Qed.

Lemma be_value_be_bytes_small (n : nat) (x : Z) :
  0 <= x < 256 ^ Z.of_nat n -> be_value (be_bytes n x) = x.
Proof. intros H. rewrite be_value_be_bytes. apply Z.mod_small. exact H. Qed.

Lemma skipn_length_app {A} (l1 l2 : list A) : skipn (List.length l1) (l1 ++ l2) = l2.
Proof. induction l1; simpl; auto. Qed.

Lemma firstn_length_app {A} (l1 l2 : list A) : firstn (List.length l1) (l1 ++ l2) = l1.
Proof. induction l1; simpl; f_equal; auto. Qed.

Lemma bigint_of_hex_nonempty (l : list byte) :
  l <> [] -> bigint_of_hex l = Returns (be_value l).
Proof. destruct l; [congruence | reflexivity]. Qed.

Lemma Returns_inj {A} (a b : A) : Returns a = Returns b -> a = b.
Proof. intros H. injection H. auto. Qed.

Lemma packed_uint_inv (n : nat) (x : Z) (t : list byte) :
  packed_uint n x = Returns t -> t = be_bytes n x /\ 0 <= x < 2 ^ (8 * Z.of_nat n).
Proof.
  unfold packed_uint. destruct (0 <=? x) eqn:E1, (x <? 2 ^ (8 * Z.of_nat n)) eqn:E2;
    cbn [andb]; intros H; try discriminate.
  apply Returns_inj in H. subst t. apply Z.leb_le in E1. apply Z.ltb_lt in E2.
  split; [reflexivity | lia].
Qed.

Lemma pow256 (n : nat) : 256 ^ Z.of_nat n = 2 ^ (8 * Z.of_nat n).
Proof.
  rewrite Z.pow_mul_r by lia. reflexivity.
Qed.

(** Layout of the amount-limit terms: 20 token bytes, then the limit. *)
Lemma encodeERC20_inv (tok amount : Z) (t : list byte) :
  encodeERC20TransferAmountTerms tok amount = Returns t ->
  List.length t = 52%nat /\ skipn 20 t = be_bytes 32 amount /\
  be_value (skipn 20 t) = amount.
Proof.
  unfold encodeERC20TransferAmountTerms, bind.
  destruct (packed_uint 32 amount) as [a|] eqn:E; intros H; [|discriminate].
  cbv beta iota in H. apply Returns_inj in H. subst t. apply packed_uint_inv in E as [-> Hr].
  rewrite length_app, !length_be_bytes.
  pose proof (skipn_length_app (be_bytes 20 tok) (be_bytes 32 amount)) as Hs.
  rewrite length_be_bytes in Hs. rewrite Hs.
  split; [reflexivity | split; [reflexivity|]].
  apply be_value_be_bytes_small. rewrite pow256. exact Hr.
Qed.

(** Layout of the timestamp terms: 16 bytes of threshold, 16 bytes of mode. *)
Lemma encodeTimestamp_inv (ts : Z) (before : bool) (t : list byte) :
  encodeTimestampTerms ts before = Returns t ->
  List.length t = 32%nat /\ slice 0 16 t = be_bytes 16 ts /\
  slice 16 32 t = be_bytes 16 (if before then 0 else 1) /\
  be_value (slice 0 16 t) = ts /\
  be_value (slice 16 32 t) = (if before then 0 else 1).
Proof.
  unfold encodeTimestampTerms, bind.
  destruct (packed_uint 16 ts) as [a|] eqn:E1; [|discriminate].
  destruct (packed_uint 16 (if before then 0 else 1)) as [b|] eqn:E2;
    intros H; [|discriminate].
  cbv beta iota in H. apply Returns_inj in H. subst t.
  apply packed_uint_inv in E1 as [-> H1]. apply packed_uint_inv in E2 as [-> H2].
  assert (Hf : slice 0 16 (be_bytes 16 ts ++ be_bytes 16 (if before then 0 else 1))
               = be_bytes 16 ts).
  { unfold slice. simpl skipn.
    pose proof (firstn_length_app (be_bytes 16 ts) (be_bytes 16 (if before then 0 else 1))) as Hx.
    rewrite length_be_bytes in Hx. exact Hx. }
  assert (Hs : slice 16 32 (be_bytes 16 ts ++ be_bytes 16 (if before then 0 else 1))
               = be_bytes 16 (if before then 0 else 1)).
  { unfold slice.
    pose proof (skipn_length_app (be_bytes 16 ts) (be_bytes 16 (if before then 0 else 1))) as Hx.
    rewrite length_be_bytes in Hx. rewrite Hx.
    apply firstn_all2. rewrite length_be_bytes. lia. }
  rewrite Hf, Hs, length_app, !length_be_bytes.
  repeat split; try reflexivity;
    apply be_value_be_bytes_small; rewrite pow256; assumption.
Qed.

Lemma to_number_small (x : Z) : 0 <= x < 2 ^ 53 -> to_number x = x.
Proof.
  intros H. unfold to_number, round_nonneg.
  destruct (x <? 0) eqn:E1; [lia|].
  destruct (x <? 2 ^ 53) eqn:E2; [reflexivity | lia].
Qed.

(** ** The hasher reads only the signed fields *)

(** The fields of a caveat that enter the EIP-712 payload. *)
Definition caveat_signed_fields (c : Caveat) : Z * list byte := (enforcer c, terms c).

Lemma map_hashCaveat_signed_fields (keccak256 : list byte -> Z) (cs1 cs2 : list Caveat) :
  map caveat_signed_fields cs1 = map caveat_signed_fields cs2 ->
  map_hashCaveat keccak256 cs1 = map_hashCaveat keccak256 cs2.
Proof.
  revert cs2; induction cs1 as [|c1 cs1 IH]; intros [|c2 cs2] H; simpl in H;
    try discriminate; [reflexivity|].
  injection H as He Ht Hr. simpl. unfold hashCaveat. rewrite He, Ht, (IH cs2 Hr).
  reflexivity.
Qed.

(** ** The caveat loop of the Transfer Validator *)

Lemma ERC20_neq_Timestamp :
  (DELEGATION_FRAMEWORK.ERC20TransferAmountEnforcer =? DELEGATION_FRAMEWORK.TimestampEnforcer) = false.
Proof. reflexivity. Qed.

Lemma Timestamp_neq_ERC20 :
  (DELEGATION_FRAMEWORK.TimestampEnforcer =? DELEGATION_FRAMEWORK.ERC20TransferAmountEnforcer) = false.
Proof. reflexivity. Qed.

Lemma checkCaveat_amount (amountWei now : Z) (errs : list TransferError) (c : Caveat) :
  enforcer c = DELEGATION_FRAMEWORK.ERC20TransferAmountEnforcer ->
  skipn 20 (terms c) <> [] ->
  checkCaveat amountWei now errs c =
  Returns (if be_value (skipn 20 (terms c)) <? amountWei
           then errs ++ [TransferAmountExceedsLimit (be_value (skipn 20 (terms c)))]
           else errs).
Proof.
  intros He Hne. unfold checkCaveat.
  rewrite He, Z.eqb_refl, ERC20_neq_Timestamp, bigint_of_hex_nonempty by exact Hne.
  reflexivity.
Qed.

Lemma checkCaveat_timestamp (amountWei now : Z) (errs : list TransferError) (c : Caveat) :
  enforcer c = DELEGATION_FRAMEWORK.TimestampEnforcer ->
  slice 0 16 (terms c) <> [] -> slice 16 32 (terms c) <> [] ->
  checkCaveat amountWei now errs c =
  Returns (if (to_number (be_value (slice 16 32 (terms c))) =? 0)
              && (to_number (be_value (slice 0 16 (terms c))) <=? now)
           then errs ++ [DelegationHasExpired]
           else errs).
Proof.
  intros He H1 H2. unfold checkCaveat.
  rewrite He, Z.eqb_refl, Timestamp_neq_ERC20. cbn [bind].
  rewrite (bigint_of_hex_nonempty _ H1), (bigint_of_hex_nonempty _ H2).
  reflexivity.
Qed.

Lemma checkCaveat_other (amountWei now : Z) (errs : list TransferError) (c : Caveat) :
  enforcer c <> DELEGATION_FRAMEWORK.ERC20TransferAmountEnforcer ->
  enforcer c <> DELEGATION_FRAMEWORK.TimestampEnforcer ->
  checkCaveat amountWei now errs c = Returns errs.
Proof.
  intros H1 H2. unfold checkCaveat.
  apply Z.eqb_neq in H1, H2. rewrite H1, H2. reflexivity.
Qed.

Lemma checkCaveat_extends (amountWei now : Z) (errs r : list TransferError) (c : Caveat) :
  checkCaveat amountWei now errs c = Returns r -> exists x, r = errs ++ x.
Proof.
  unfold checkCaveat, bind.
  repeat match goal with
         | |- context [bigint_of_hex ?l] => destruct (bigint_of_hex l)
         | |- context [if ?b then _ else _] =>
             lazymatch type of b with bool => destruct b end
         end;
  intros H; try discriminate; apply Returns_inj in H; subst r;
  solve [ exists []; rewrite app_nil_r; reflexivity
        | eexists; rewrite <- !app_assoc; reflexivity
        | eexists; reflexivity ].
Qed.

Lemma checkCaveats_extends (amountWei now : Z) (cs : list Caveat) :
  forall errs r, checkCaveats amountWei now errs cs = Returns r -> exists x, r = errs ++ x.
Proof.
  induction cs as [|c cs IH]; intros errs r H; simpl in H.
  - apply Returns_inj in H. subst r. exists []. symmetry. apply app_nil_r.
  - destruct (checkCaveat amountWei now errs c) as [e1|] eqn:E; cbn [bind] in H;
      [|discriminate].
    apply checkCaveat_extends in E as [x1 ->]. apply IH in H as [x2 ->].
    exists (x1 ++ x2). symmetry. apply app_assoc.
Qed.

Lemma checkCaveats_app (amountWei now : Z) (l1 l2 : list Caveat) :
  forall errs, checkCaveats amountWei now errs (l1 ++ l2) =
               bind (checkCaveats amountWei now errs l1)
                    (fun e => checkCaveats amountWei now e l2).
Proof.
  induction l1 as [|c l1 IH]; intros errs; simpl; [reflexivity|].
  destruct (checkCaveat amountWei now errs c); simpl; auto.
Qed.

(** The caveats the client decodes have the length of their layout. *)
Definition wf_caveat (c : Caveat) : Prop :=
  (enforcer c = DELEGATION_FRAMEWORK.ERC20TransferAmountEnforcer ->
   List.length (terms c) = 52%nat) /\
  (enforcer c = DELEGATION_FRAMEWORK.TimestampEnforcer ->
   List.length (terms c) = 32%nat).

Lemma nonempty_of_length {A} (l : list A) : (0 < List.length l)%nat -> l <> [].
Proof. destruct l; simpl; [lia | discriminate]. Qed.

Lemma checkCaveat_returns_wf (amountWei now : Z) (errs : list TransferError) (c : Caveat) :
  wf_caveat c -> exists r, checkCaveat amountWei now errs c = Returns r.
Proof.
  intros [Ha Ht].
  destruct (Z.eq_dec (enforcer c) DELEGATION_FRAMEWORK.ERC20TransferAmountEnforcer) as [Ea|Ea].
  - rewrite checkCaveat_amount by
      (auto; apply nonempty_of_length; rewrite length_skipn, Ha by auto; lia).
    eauto.
  - destruct (Z.eq_dec (enforcer c) DELEGATION_FRAMEWORK.TimestampEnforcer) as [Et|Et].
    + rewrite checkCaveat_timestamp; [eauto | exact Et | |];
        apply nonempty_of_length; unfold slice;
        rewrite length_firstn, length_skipn, Ht by exact Et; simpl; lia.
    + rewrite checkCaveat_other by auto. eauto.
Qed.

Lemma checkCaveats_returns_wf (amountWei now : Z) (cs : list Caveat) :
  Forall wf_caveat cs ->
  forall errs, exists r, checkCaveats amountWei now errs cs = Returns r.
Proof.
  induction 1 as [|c cs Hc Hcs IH]; intros errs; simpl; [eauto|].
  destruct (checkCaveat_returns_wf amountWei now errs c Hc) as [e1 ->].
  cbn [bind]. apply IH.
Qed.

Lemma checkCaveats_In (amountWei now : Z) (c : Caveat) (E : TransferError) :
  (forall errs, checkCaveat amountWei now errs c = Returns (errs ++ [E])) ->
  forall cs errs r, In c cs -> checkCaveats amountWei now errs cs = Returns r -> In E r.
Proof.
  intros Hc cs errs r Hin H.
  apply in_split in Hin as (l1 & l2 & ->).
  rewrite checkCaveats_app in H.
  destruct (checkCaveats amountWei now errs l1) as [e1|]; cbn [bind] in H; [|discriminate].
  simpl in H. rewrite Hc in H. cbn [bind] in H.
  apply checkCaveats_extends in H as [x ->].
  apply in_or_app. left. apply in_or_app. right. left. reflexivity.
Qed.

(** Amount-limit caveat built by [encodeERC20TransferAmountTerms]. *)
Lemma checkCaveat_amount_exceeded (amountWei now : Z) (c : Caveat) (tok L : Z) :
  enforcer c = DELEGATION_FRAMEWORK.ERC20TransferAmountEnforcer ->
  encodeERC20TransferAmountTerms tok L = Returns (terms c) ->
  L < amountWei ->
  forall errs, checkCaveat amountWei now errs c =
               Returns (errs ++ [TransferAmountExceedsLimit L]).
Proof.
  intros He Ht Hlt errs.
  apply encodeERC20_inv in Ht as (Hlen & Hs & Hv).
  rewrite checkCaveat_amount by
    (auto; apply nonempty_of_length; rewrite length_skipn, Hlen; lia).
  rewrite Hv. apply Z.ltb_lt in Hlt. rewrite Hlt. reflexivity.
Qed.

(** Timestamp caveat built by [encodeTimestampTerms(T, 'before')]. *)
Lemma checkCaveat_expired (amountWei now : Z) (c : Caveat) (T : Z) :
  enforcer c = DELEGATION_FRAMEWORK.TimestampEnforcer ->
  encodeTimestampTerms T true = Returns (terms c) ->
  to_number T <= now ->
  forall errs, checkCaveat amountWei now errs c = Returns (errs ++ [DelegationHasExpired]).
Proof.
  intros He Ht Hle errs.
  apply encodeTimestamp_inv in Ht as (Hlen & Hs0 & Hs1 & Hv0 & Hv1).
  rewrite checkCaveat_timestamp; auto.
  - rewrite Hv0, Hv1. apply Z.leb_le in Hle. rewrite Hle. reflexivity.
  - rewrite Hs0. apply nonempty_of_length. rewrite length_be_bytes. lia.
  - rewrite Hs1. apply nonempty_of_length. rewrite length_be_bytes. lia.
Qed.

Lemma validateTransfer_reports_amount_and_expiry
    (d : Delegation) (to amountWei now_ms tok L T : Z) (ca ct : Caveat) :
  Forall wf_caveat (caveats d) ->
  In ca (caveats d) ->
  enforcer ca = DELEGATION_FRAMEWORK.ERC20TransferAmountEnforcer ->
  encodeERC20TransferAmountTerms tok L = Returns (terms ca) ->
  L < amountWei ->
  In ct (caveats d) ->
  enforcer ct = DELEGATION_FRAMEWORK.TimestampEnforcer ->
  encodeTimestampTerms T true = Returns (terms ct) ->
  to_number T <= now_seconds now_ms ->
  exists r, validateTransfer d to amountWei now_ms = Returns r /\
            valid r = false /\
            In (TransferAmountExceedsLimit L) (errors r) /\
            In DelegationHasExpired (errors r).
Proof.
  intros Hwf Hia Hea Hta Hlt Hit Het Htt Hle.
  destruct (checkCaveats_returns_wf amountWei (now_seconds now_ms) _ Hwf [])
    as [errs Herrs].
  pose proof (checkCaveats_In _ _ _ _
                (checkCaveat_amount_exceeded amountWei (now_seconds now_ms) ca tok L Hea Hta Hlt)
                _ _ _ Hia Herrs) as H1.
  pose proof (checkCaveats_In _ _ _ _
                (checkCaveat_expired amountWei (now_seconds now_ms) ct T Het Htt Hle)
                _ _ _ Hit Herrs) as H2.
  exists (result_of errs). unfold validateTransfer. rewrite Herrs.
  split; [reflexivity|]. split; [|split; assumption].
  unfold result_of. simpl. destruct errs; [contradiction | reflexivity].
Qed.

Lemma validateSubDelegationScope_reports_amount_and_expiry
    (parent : Delegation) (params : SubDelegationParams) (now_ms tok P C T e : Z)
    (mode_before : bool) (ca ct : Caveat) :
  findCaveat DELEGATION_FRAMEWORK.ERC20TransferAmountEnforcer (caveats parent) = Some ca ->
  encodeERC20TransferAmountTerms tok P = Returns (terms ca) ->
  s_amount params = Some C ->
  P < C ->
  findCaveat DELEGATION_FRAMEWORK.TimestampEnforcer (caveats parent) = Some ct ->
  encodeTimestampTerms T mode_before = Returns (terms ct) ->
  s_expirySeconds params = Some e ->
  e <> 0 ->
  to_number T < to_number (now_seconds now_ms + e) ->
  validateSubDelegationScope parent params now_ms =
  Returns (mkResult false [SubAmountExceedsParentScope C; SubExpiryExceedsParentExpiry]).
Proof.
  intros Hfa Hta Hc Hlt Hft Htt He Hne Hexp.
  assert (HP : 0 <= P).
  { unfold encodeERC20TransferAmountTerms, bind in Hta.
    destruct (packed_uint 32 P) eqn:E; [|discriminate].
    apply packed_uint_inv in E. lia. }
  apply encodeERC20_inv in Hta as (Hlen & Hs & Hv).
  apply encodeTimestamp_inv in Htt as (Hlen' & Hs0 & Hs1 & Hv0 & Hv1).
  unfold validateSubDelegationScope, checkAmountScope, checkExpiryScope. cbv zeta.
  rewrite Hfa, Hft, Hc, He. unfold truthy.
  replace (C =? 0) with false by (symmetry; apply Z.eqb_neq; lia).
  replace (e =? 0) with false by (symmetry; apply Z.eqb_neq; lia).
  cbn [negb].
  rewrite bigint_of_hex_nonempty
    by (apply nonempty_of_length; rewrite length_skipn, Hlen; lia).
  cbn [bind]. rewrite Hv. apply Z.ltb_lt in Hlt. rewrite Hlt.
  rewrite bigint_of_hex_nonempty
    by (rewrite Hs0; apply nonempty_of_length; rewrite length_be_bytes; lia).
  cbn [bind]. rewrite Hv0. apply Z.ltb_lt in Hexp. rewrite Hexp.
  reflexivity.
Qed.

(** ** The two blocks of the Scope Validator *)

Lemma bigint_of_hex_inv (l : list byte) (z : Z) :
  bigint_of_hex l = Returns z -> l <> [] /\ z = be_value l.
Proof.
  destruct l; simpl; intros H; [discriminate|].
  apply Returns_inj in H. split; [discriminate | auto].
Qed.

Lemma encodeERC20_range (tok amount : Z) (t : list byte) :
  encodeERC20TransferAmountTerms tok amount = Returns t -> 0 <= amount < 2 ^ 256.
Proof.
  unfold encodeERC20TransferAmountTerms, bind.
  destruct (packed_uint 32 amount) eqn:E; intros H; [|discriminate].
  apply packed_uint_inv in E. exact (proj2 E).
Qed.

Lemma encodeTimestamp_range (ts : Z) (before : bool) (t : list byte) :
  encodeTimestampTerms ts before = Returns t -> 0 <= ts < 2 ^ 128.
Proof.
  unfold encodeTimestampTerms, bind.
  destruct (packed_uint 16 ts) eqn:E; intros H; [|discriminate].
  apply packed_uint_inv in E. exact (proj2 E).
Qed.

Lemma checkAmountScope_spec (parent : Delegation) (C : Z) (exp : option Z)
    (errs : list ScopeError) (tok P : Z) (ca : Caveat) :
  findCaveat DELEGATION_FRAMEWORK.ERC20TransferAmountEnforcer (caveats parent) = Some ca ->
  encodeERC20TransferAmountTerms tok P = Returns (terms ca) ->
  checkAmountScope parent (mkSubParams (Some C) exp) errs =
  Returns (if P <? C then errs ++ [SubAmountExceedsParentScope C] else errs).
Proof.
  intros Hfa Hta.
  pose proof (encodeERC20_range _ _ _ Hta) as HP.
  apply encodeERC20_inv in Hta as (Hlen & Hs & Hv).
  unfold checkAmountScope. cbv zeta. rewrite Hfa. cbn [s_amount]. unfold truthy.
  destruct (Z.eqb_spec C 0) as [->|HC]; cbn [negb].
  - replace (P <? 0) with false by (symmetry; apply Z.ltb_ge; lia). reflexivity.
  - rewrite bigint_of_hex_nonempty
      by (apply nonempty_of_length; rewrite length_skipn, Hlen; lia).
    cbn [bind]. rewrite Hv. reflexivity.
Qed.

Lemma checkExpiryScope_spec (parent : Delegation) (amt : option Z) (e now_ms : Z)
    (errs : list ScopeError) (ct : Caveat) (T : Z) (mode_before : bool) :
  findCaveat DELEGATION_FRAMEWORK.TimestampEnforcer (caveats parent) = Some ct ->
  encodeTimestampTerms T mode_before = Returns (terms ct) ->
  e <> 0 ->
  checkExpiryScope parent (mkSubParams amt (Some e)) now_ms errs =
  Returns (if to_number T <? to_number (now_seconds now_ms + e)
           then errs ++ [SubExpiryExceedsParentExpiry] else errs).
Proof.
  intros Hft Htt He.
  apply encodeTimestamp_inv in Htt as (Hlen & Hs0 & Hs1 & Hv0 & Hv1).
  unfold checkExpiryScope. cbv zeta. rewrite Hft. cbn [s_expirySeconds]. unfold truthy.
  replace (e =? 0) with false by (symmetry; apply Z.eqb_neq; lia). cbn [negb].
  rewrite bigint_of_hex_nonempty
    by (rewrite Hs0; apply nonempty_of_length; rewrite length_be_bytes; lia).
  cbn [bind]. rewrite Hv0. reflexivity.
Qed.

Lemma checkExpiryScope_shape (parent : Delegation) (params : SubDelegationParams)
    (now_ms : Z) (errs r : list ScopeError) :
  checkExpiryScope parent params now_ms errs = Returns r ->
  r = errs \/ r = errs ++ [SubExpiryExceedsParentExpiry].
Proof.
  unfold checkExpiryScope. cbv zeta.
  destruct (findCaveat DELEGATION_FRAMEWORK.TimestampEnforcer (caveats parent));
    [|intros H; apply Returns_inj in H; auto].
  destruct (s_expirySeconds params); [|intros H; apply Returns_inj in H; auto].
  destruct (truthy _); [|intros H; apply Returns_inj in H; auto].
  destruct (bigint_of_hex _); cbn [bind]; intros H; [|discriminate].
  apply Returns_inj in H. subst r. destruct (_ <? _); auto.
Qed.


(** ** Which caveats make the Transfer Validator report an expiry *)

Lemma ERC20_ne_Timestamp :
  DELEGATION_FRAMEWORK.ERC20TransferAmountEnforcer <> DELEGATION_FRAMEWORK.TimestampEnforcer.
Proof. apply Z.eqb_neq. exact ERC20_neq_Timestamp. Qed.

(** The expiry test of the loop body on one caveat. *)
Definition expired_now (now : Z) (c : Caveat) : Prop :=
  enforcer c = DELEGATION_FRAMEWORK.TimestampEnforcer /\
  to_number (be_value (slice 16 32 (terms c))) = 0 /\
  to_number (be_value (slice 0 16 (terms c))) <= now.

Lemma checkCaveat_expired_iff (amountWei now : Z) (errs r : list TransferError) (c : Caveat) :
  checkCaveat amountWei now errs c = Returns r ->
  (In DelegationHasExpired r <-> In DelegationHasExpired errs \/ expired_now now c).
Proof.
  unfold expired_now.
  destruct (Z.eq_dec (enforcer c) DELEGATION_FRAMEWORK.ERC20TransferAmountEnforcer) as [Ea|Ea].
  - unfold checkCaveat. rewrite Ea, Z.eqb_refl, ERC20_neq_Timestamp.
    destruct (bigint_of_hex (skipn 20 (terms c))) as [m|]; cbn [bind]; intros H;
      [|discriminate].
    apply Returns_inj in H. subst r.
    pose proof ERC20_ne_Timestamp.
    destruct (m <? amountWei); [rewrite in_app_iff; simpl|];
      intuition (try discriminate; try contradiction).
  - destruct (Z.eq_dec (enforcer c) DELEGATION_FRAMEWORK.TimestampEnforcer) as [Et|Et].
    + unfold checkCaveat. rewrite Et, Timestamp_neq_ERC20, Z.eqb_refl. cbn [bind].
      destruct (bigint_of_hex (slice 0 16 (terms c))) as [t|] eqn:B1; cbn [bind];
        [|discriminate].
      destruct (bigint_of_hex (slice 16 32 (terms c))) as [m|] eqn:B2; cbn [bind];
        intros H; [|discriminate].
      apply bigint_of_hex_inv in B1 as [_ ->]. apply bigint_of_hex_inv in B2 as [_ ->].
      apply Returns_inj in H. subst r.
      destruct ((to_number (be_value (slice 16 32 (terms c))) =? 0)
                && (to_number (be_value (slice 0 16 (terms c))) <=? now)) eqn:Eb.
      * apply andb_true_iff in Eb as [E1 E2].
        apply Z.eqb_eq in E1. apply Z.leb_le in E2.
        rewrite in_app_iff. simpl. intuition.
      * apply andb_false_iff in Eb.
        split; [tauto|]. intros [H|(_ & H1 & H2)]; [exact H|].
        destruct Eb as [Eb|Eb]; [apply Z.eqb_neq in Eb | apply Z.leb_gt in Eb]; lia.
    + rewrite checkCaveat_other by assumption. intros H. apply Returns_inj in H.
      subst r. intuition.
Qed.

Lemma checkCaveats_expired_iff (amountWei now : Z) (cs : list Caveat) :
  forall errs r, checkCaveats amountWei now errs cs = Returns r ->
  (In DelegationHasExpired r <->
   In DelegationHasExpired errs \/ exists c, In c cs /\ expired_now now c).
Proof.
  induction cs as [|c cs IH]; intros errs r H; simpl in H.
  - apply Returns_inj in H. subst r. split; [tauto|]. intros [H|(c & [] & _)]. exact H.
  - destruct (checkCaveat amountWei now errs c) as [e1|] eqn:E; cbn [bind] in H;
      [|discriminate].
    rewrite (IH e1 r H), (checkCaveat_expired_iff _ _ _ _ _ E).
    split.
    + intros [[H1|H1]|(c' & Hin & Hc')]; eauto.
      right. exists c. split; [left; reflexivity | exact H1].
      right. exists c'. split; [right; exact Hin | exact Hc'].
    + intros [H1|(c' & [<-|Hin] & Hc')]; eauto.
Qed.

(** ** The Scope Validator never reads the token of the amount caveat *)

Lemma findCaveat_map (f : Caveat -> Caveat) (enf : Z) (cs : list Caveat) :
  (forall c, enforcer (f c) = enforcer c) ->
  findCaveat enf (map f cs) = option_map f (findCaveat enf cs).
Proof.
  intros Hf. unfold findCaveat. induction cs as [|c cs IH]; simpl; [reflexivity|].
  rewrite Hf. destruct (enforcer c =? enf); simpl; auto.
Qed.

Lemma enforcer_set_amount_token (tok : Z) (c : Caveat) :
  enforcer (set_amount_token tok c) = enforcer c.
Proof. unfold set_amount_token. destruct (_ =? _); reflexivity. Qed.

Lemma checkAmountScope_set_amount_token (parent : Delegation) (tok : Z)
    (params : SubDelegationParams) (errs : list ScopeError) :
  checkAmountScope (with_caveats parent (map (set_amount_token tok) (caveats parent)))
                   params errs =
  checkAmountScope parent params errs.
Proof.
  unfold checkAmountScope. cbv zeta. cbn [caveats with_caveats].
  rewrite findCaveat_map by apply enforcer_set_amount_token.
  destruct (findCaveat DELEGATION_FRAMEWORK.ERC20TransferAmountEnforcer (caveats parent))
    as [ca|] eqn:F; [|reflexivity].
  apply find_some in F as [_ F]. apply Z.eqb_eq in F.
  assert (Hs : skipn 20 (terms (set_amount_token tok ca)) = skipn 20 (terms ca)).
  { unfold set_amount_token. rewrite F, Z.eqb_refl. cbn [terms].
    pose proof (skipn_length_app (be_bytes 20 tok) (skipn 20 (terms ca))) as H.
    rewrite length_be_bytes in H. exact H. }
  cbn [option_map]. destruct (s_amount params); cbv beta iota; [|reflexivity].
  rewrite Hs. reflexivity.
Qed.

Lemma checkExpiryScope_set_amount_token (parent : Delegation) (tok : Z)
    (params : SubDelegationParams) (now_ms : Z) (errs : list ScopeError) :
  checkExpiryScope (with_caveats parent (map (set_amount_token tok) (caveats parent)))
                   params now_ms errs =
  checkExpiryScope parent params now_ms errs.
Proof.
  unfold checkExpiryScope. cbv zeta. cbn [caveats with_caveats].
  rewrite findCaveat_map by apply enforcer_set_amount_token.
  destruct (findCaveat DELEGATION_FRAMEWORK.TimestampEnforcer (caveats parent))
    as [ct|] eqn:F; [|reflexivity].
  apply find_some in F as [_ F]. apply Z.eqb_eq in F.
  assert (Hc : set_amount_token tok ct = ct).
  { unfold set_amount_token. rewrite F, Timestamp_neq_ERC20. reflexivity. }
  cbn [option_map]. rewrite Hc. reflexivity.
Qed.

(** ** Caveat order produced by the Delegation Builder *)

Lemma buildDelegation_enforcers (params : BuildParams) (now_ms : Z) (d : Delegation) :
  buildDelegation params now_ms = Returns d ->
  map enforcer (caveats d) =
    [DELEGATION_FRAMEWORK.ValueLteEnforcer] ++
    (if truthy (p_amount params)
     then [DELEGATION_FRAMEWORK.ERC20TransferAmountEnforcer] else []) ++
    (if truthy (p_expirySeconds params)
     then [DELEGATION_FRAMEWORK.TimestampEnforcer] else []).
Proof.
  unfold buildDelegation. cbv zeta.
  destruct (p_amount params) as [a|]; cbn [truthy];
  [destruct (negb (a =? 0)); [destruct (encodeERC20TransferAmountTerms USDC_ADDRESS a)|]|];
  cbn [bind]; try discriminate;
  (destruct (p_expirySeconds params) as [e|]; cbn [truthy];
   [destruct (negb (e =? 0));
    [destruct (encodeTimestampTerms (to_number (now_seconds now_ms + e)) true)|]|]);
  cbn [bind]; intros H; try discriminate; apply Returns_inj in H; subst d;
  cbn [caveats]; rewrite ?map_app; reflexivity.
Qed.

Lemma buildDelegation_salt_eq (params : BuildParams) (now_ms : Z) (d : Delegation) :
  buildDelegation params now_ms = Returns d -> salt d = now_ms.
Proof.
  unfold buildDelegation. cbv zeta.
  destruct (p_amount params) as [a|]; cbn [truthy];
  [destruct (negb (a =? 0)); [destruct (encodeERC20TransferAmountTerms USDC_ADDRESS a)|]|];
  cbn [bind]; try discriminate;
  (destruct (p_expirySeconds params) as [e|]; cbn [truthy];
   [destruct (negb (e =? 0));
    [destruct (encodeTimestampTerms (to_number (now_seconds now_ms + e)) true)|]|]);
  cbn [bind]; intros H; try discriminate; apply Returns_inj in H; subst d; reflexivity.
Qed.

(** * Claims *)

(** C6: for two delegations that agree on delegate, delegator, authority,
    salt, and on the enforcer and terms of every caveat in order,
    [getDelegationHash] gives the same result whatever their signatures and
    their caveats' args; this holds for every keccak256. *)
Theorem getDelegationHash_ignores_signature_and_args
    (keccak256 : list byte -> Z) (d1 d2 : Delegation) :
  delegate d1 = delegate d2 ->
  delegator d1 = delegator d2 ->
  authority d1 = authority d2 ->
  salt d1 = salt d2 ->
  map caveat_signed_fields (caveats d1) = map caveat_signed_fields (caveats d2) ->
  getDelegationHash keccak256 d1 = getDelegationHash keccak256 d2.
Proof.
  intros H1 H2 H3 H4 H5. unfold getDelegationHash, hashCaveatsArray.
  rewrite (map_hashCaveat_signed_fields keccak256 _ _ H5), H1, H2, H3, H4.
  reflexivity.
Qed.

Lemma getDelegationHash_ignores_signature_and_args_witness :
  getDelegationHash Sample.keccak256
    (mkDelegation Sample.bob Sample.alice ROOT_AUTHORITY
       [mkCaveat DELEGATION_FRAMEWORK.ValueLteEnforcer (encodeValueLteTerms 0) [x01; x02]]
       Sample.now_ms [x1b; x1c])
  = getDelegationHash Sample.keccak256
    (mkDelegation Sample.bob Sample.alice ROOT_AUTHORITY
       [mkCaveat DELEGATION_FRAMEWORK.ValueLteEnforcer (encodeValueLteTerms 0) []]
       Sample.now_ms []).
Proof.
  apply getDelegationHash_ignores_signature_and_args; reflexivity.
Defined.

(** C7: one call reports every violation.  The Transfer Validator, given a
    delegation whose decoded caveats are well formed, one of them an
    amount limit below the proposed amount and one an expired 'before'
    timestamp, returns both violations; the Scope Validator, given a child
    over the parent's amount limit and past the parent's expiry, returns
    both violations. *)
Theorem all_violations_reported_in_one_call :
  (forall (d : Delegation) (to amountWei now_ms tok L T : Z) (ca ct : Caveat),
    Forall wf_caveat (caveats d) ->
    In ca (caveats d) ->
    enforcer ca = DELEGATION_FRAMEWORK.ERC20TransferAmountEnforcer ->
    encodeERC20TransferAmountTerms tok L = Returns (terms ca) ->
    L < amountWei ->
    In ct (caveats d) ->
    enforcer ct = DELEGATION_FRAMEWORK.TimestampEnforcer ->
    encodeTimestampTerms T true = Returns (terms ct) ->
    to_number T <= now_seconds now_ms ->
    exists r, validateTransfer d to amountWei now_ms = Returns r /\
              valid r = false /\
              In (TransferAmountExceedsLimit L) (errors r) /\
              In DelegationHasExpired (errors r)) /\
  (forall (parent : Delegation) (params : SubDelegationParams)
          (now_ms tok P C T e : Z) (mode_before : bool) (ca ct : Caveat),
    findCaveat DELEGATION_FRAMEWORK.ERC20TransferAmountEnforcer (caveats parent) = Some ca ->
    encodeERC20TransferAmountTerms tok P = Returns (terms ca) ->
    s_amount params = Some C ->
    P < C ->
    findCaveat DELEGATION_FRAMEWORK.TimestampEnforcer (caveats parent) = Some ct ->
    encodeTimestampTerms T mode_before = Returns (terms ct) ->
    s_expirySeconds params = Some e ->
    e <> 0 ->
    to_number T < to_number (now_seconds now_ms + e) ->
    validateSubDelegationScope parent params now_ms =
    Returns (mkResult false [SubAmountExceedsParentScope C; SubExpiryExceedsParentExpiry])).
Proof.
  split.
  - exact validateTransfer_reports_amount_and_expiry.
  - exact validateSubDelegationScope_reports_amount_and_expiry.
Qed.

Lemma all_violations_reported_in_one_call_witness :
  (exists r, validateTransfer
               (Sample.root_delegation [Sample.usdc_limit 40000000; Sample.before 1700000000])
               Sample.carol 50000000 Sample.now_ms = Returns r /\
             valid r = false /\
             In (TransferAmountExceedsLimit 40000000) (errors r) /\
             In DelegationHasExpired (errors r)) /\
  validateSubDelegationScope
    (Sample.root_delegation [Sample.usdc_limit 1000000000; Sample.before 1760086400])
    (mkSubParams (Some 1200000000) (Some 172800)) Sample.now_ms =
  Returns (mkResult false [SubAmountExceedsParentScope 1200000000; SubExpiryExceedsParentExpiry]).
Proof.
  split.
  - apply (proj1 all_violations_reported_in_one_call
             _ Sample.carol 50000000 Sample.now_ms USDC_ADDRESS 40000000 1700000000
             (Sample.usdc_limit 40000000) (Sample.before 1700000000)).
    + repeat constructor; vm_compute; discriminate.
    + simpl. left. reflexivity.
    + reflexivity.
    + reflexivity.
    + vm_compute. reflexivity.
    + simpl. right. left. reflexivity.
    + reflexivity.
    + reflexivity.
    + vm_compute. discriminate.
  - apply (proj2 all_violations_reported_in_one_call
             _ _ Sample.now_ms USDC_ADDRESS 1000000000 1200000000 1760086400 172800 true
             (Sample.usdc_limit 1000000000) (Sample.before 1760086400));
      try reflexivity; vm_compute; first [reflexivity | discriminate].
Defined.

(** C10: the Transfer Validator never reads the recipient: for any two
    recipients, the same delegation, amount and clock give the same
    result. *)
Theorem validateTransfer_ignores_recipient
    (d : Delegation) (r1 r2 amountWei now_ms : Z) :
  validateTransfer d r1 amountWei now_ms = validateTransfer d r2 amountWei now_ms.
Proof. reflexivity. Qed.




(** C2 (as amended): the Transfer Validator reads a timestamp caveat as a
    threshold (first 16 bytes) and a mode (next 16 bytes), not as a
    notBefore/notAfter pair.  Whenever it returns, it reports an expiry
    iff some timestamp caveat has mode 0 and now >= Number(threshold); a
    mode-0 threshold of 0 is therefore always expired, and caveats of any
    other mode never produce a time violation. *)
Theorem validateTransfer_expiry_iff
    (d : Delegation) (to amountWei now_ms : Z) (r : ValidationResult TransferError) :
  validateTransfer d to amountWei now_ms = Returns r ->
  (In DelegationHasExpired (errors r) <->
   exists c, In c (caveats d) /\
             enforcer c = DELEGATION_FRAMEWORK.TimestampEnforcer /\
             to_number (be_value (slice 16 32 (terms c))) = 0 /\
             to_number (be_value (slice 0 16 (terms c))) <= now_seconds now_ms).
Proof.
  unfold validateTransfer.
  destruct (checkCaveats amountWei (now_seconds now_ms) [] (caveats d)) as [errs|] eqn:E;
    cbn [bind]; intros H; [|discriminate].
  apply Returns_inj in H. subst r. cbn [errors result_of].
  rewrite (checkCaveats_expired_iff _ _ _ _ _ E).
  unfold expired_now. simpl. intuition.
Qed.

Lemma validateTransfer_expiry_iff_witness :
  In DelegationHasExpired (errors (mkResult false [DelegationHasExpired])) <->
  exists c, In c (caveats (Sample.root_delegation [Sample.before 0])) /\
            enforcer c = DELEGATION_FRAMEWORK.TimestampEnforcer /\
            to_number (be_value (slice 16 32 (terms c))) = 0 /\
            to_number (be_value (slice 0 16 (terms c))) <= now_seconds Sample.now_ms.
Proof.
  apply (validateTransfer_expiry_iff (Sample.root_delegation [Sample.before 0])
           Sample.carol 1000000 Sample.now_ms).
  vm_compute. reflexivity.
Defined.

(** C2 fails: a time-window upper bound of 0, encoded as
    [encodeTimestampTerms(0, 'before')], does not mean "no upper bound":
    every transfer is reported as expired. *)
Lemma zero_upper_bound_counterexample :
  encodeTimestampTerms 0 true = Returns (terms (Sample.before 0)) /\
  validateTransfer (Sample.root_delegation [Sample.before 0]) Sample.carol 1000000
    Sample.now_ms = Returns (mkResult false [DelegationHasExpired]).
Proof. split; vm_compute; reflexivity. Qed.

Lemma bigint_of_hex_throws (l : list byte) (e : JsError) :
  bigint_of_hex l = Throws e -> e = SyntaxError.
Proof. destruct l; simpl; intros H; [injection H as <-; reflexivity | discriminate]. Qed.

Lemma checkCaveat_throws_syntax (amountWei now : Z) (errs : list TransferError)
    (c : Caveat) (e : JsError) :
  checkCaveat amountWei now errs c = Throws e -> e = SyntaxError.
Proof.
  unfold checkCaveat, bind.
  repeat match goal with
         | |- context [bigint_of_hex ?l] =>
             let Hb := fresh "Hb" in
             destruct (bigint_of_hex l) eqn:Hb;
             [|intros H; injection H as <-; exact (bigint_of_hex_throws _ _ Hb)]
         | |- context [if ?b then _ else _] =>
             lazymatch type of b with bool => destruct b end
         end;
  intros H; discriminate.
Qed.

Lemma checkCaveats_throws_syntax (amountWei now : Z) (cs : list Caveat) :
  forall errs e, checkCaveats amountWei now errs cs = Throws e -> e = SyntaxError.
Proof.
  induction cs as [|c cs IH]; intros errs e H; simpl in H; [discriminate|].
  destruct (checkCaveat amountWei now errs c) as [e1|e1] eqn:E; cbn [bind] in H.
  - exact (IH _ _ H).
  - injection H as <-. exact (checkCaveat_throws_syntax _ _ _ _ _ E).
Qed.

Lemma checkCaveats_throws_at (amountWei now : Z) (c : Caveat) :
  (forall errs, checkCaveat amountWei now errs c = Throws SyntaxError) ->
  forall cs errs, In c cs -> checkCaveats amountWei now errs cs = Throws SyntaxError.
Proof.
  intros Hc cs errs Hin.
  apply in_split in Hin as (l1 & l2 & ->).
  rewrite checkCaveats_app.
  destruct (checkCaveats amountWei now errs l1) as [e1|e1] eqn:E; cbn [bind].
  - simpl. rewrite Hc. reflexivity.
  - rewrite (checkCaveats_throws_syntax _ _ _ _ _ E). reflexivity.
Qed.

Lemma checkCaveat_limit_bound (amountWei now : Z) (errs r : list TransferError)
    (c : Caveat) :
  checkCaveat amountWei now errs c = Returns r ->
  forall m, In (TransferAmountExceedsLimit m) r ->
            In (TransferAmountExceedsLimit m) errs \/ m < amountWei.
Proof.
  unfold checkCaveat, bind.
  repeat match goal with
         | |- context [bigint_of_hex ?l] => destruct (bigint_of_hex l)
         | |- context [if ?b then _ else _] =>
             lazymatch type of b with bool => destruct b eqn:? end
         end;
  intros H; try discriminate; apply Returns_inj in H; subst r; intros m Hm;
  repeat (rewrite in_app_iff in Hm; simpl in Hm);
  repeat match goal with
         | Hb : (_ <? _) = true |- _ => apply Z.ltb_lt in Hb
         end;
  intuition (try congruence);
  match goal with Hq : TransferAmountExceedsLimit _ = TransferAmountExceedsLimit _ |- _ =>
    injection Hq as <-; auto end.
Qed.

Lemma checkCaveats_limit_bound (amountWei now : Z) (cs : list Caveat) :
  forall errs r, checkCaveats amountWei now errs cs = Returns r ->
  (forall m, In (TransferAmountExceedsLimit m) errs -> m < amountWei) ->
  forall m, In (TransferAmountExceedsLimit m) r -> m < amountWei.
Proof.
  induction cs as [|c cs IH]; intros errs r H Herrs; simpl in H.
  - apply Returns_inj in H. subst r. exact Herrs.
  - destruct (checkCaveat amountWei now errs c) as [e1|] eqn:E; cbn [bind] in H;
      [|discriminate].
    apply (IH e1 r H). intros m Hm.
    destruct (checkCaveat_limit_bound _ _ _ _ _ E m Hm); auto.
Qed.

Lemma checkCaveats_returns_each (amountWei now : Z) (cs : list Caveat) :
  (forall c, In c cs -> forall errs, exists r, checkCaveat amountWei now errs c = Returns r) ->
  forall errs, exists r, checkCaveats amountWei now errs cs = Returns r.
Proof.
  induction cs as [|c cs IH]; intros Hc errs; simpl; [eauto|].
  destruct (Hc c (or_introl eq_refl) errs) as [e1 ->]. cbn [bind].
  apply IH. intros c' Hin. apply Hc. right. exact Hin.
Qed.

(** C3 (as amended): the Transfer Validator checks no length on the terms
    of an amount-limit caveat.  For any delegation and any amount-limit
    caveat in it: when the terms have at most 20 bytes, validation throws
    (BigInt's SyntaxError); when they are longer, the caveat is decoded
    whatever the length, its limit being the big-endian value of every byte
    after the 20th: whenever the validator returns, it reports that limit
    as exceeded iff the amount is greater, and it does return when the
    delegation's other caveats are well formed. *)
Theorem validateTransfer_amount_terms_length_unchecked
    (d : Delegation) (c : Caveat) (to amountWei now_ms : Z) :
  In c (caveats d) ->
  enforcer c = DELEGATION_FRAMEWORK.ERC20TransferAmountEnforcer ->
  ((List.length (terms c) <= 20)%nat ->
   validateTransfer d to amountWei now_ms = Throws SyntaxError) /\
  ((20 < List.length (terms c))%nat ->
   (forall r, validateTransfer d to amountWei now_ms = Returns r ->
      (In (TransferAmountExceedsLimit (be_value (skipn 20 (terms c)))) (errors r) <->
       be_value (skipn 20 (terms c)) < amountWei)) /\
   ((forall c', In c' (caveats d) -> c' = c \/ wf_caveat c') ->
    exists r, validateTransfer d to amountWei now_ms = Returns r)).
Proof.
  intros Hin He. unfold validateTransfer. split; [|intros Hl; split].
  - intros Hl. rewrite (checkCaveats_throws_at _ _ c); [reflexivity| |exact Hin].
    intros errs. unfold checkCaveat.
    rewrite He, Z.eqb_refl, skipn_all2 by exact Hl. reflexivity.
  - intros r H.
    destruct (checkCaveats amountWei (now_seconds now_ms) [] (caveats d)) as [errs|] eqn:E;
      cbn [bind] in H; [|discriminate].
    apply Returns_inj in H. subst r. cbn [errors result_of]. split.
    + intros Hm. apply (checkCaveats_limit_bound _ _ _ _ _ E); [simpl; tauto | exact Hm].
    + intros Hlt. apply (checkCaveats_In amountWei (now_seconds now_ms) c _ ) with
        (cs := caveats d) (errs := []); [|exact Hin|exact E].
      intros errs'. rewrite checkCaveat_amount by
        (auto; apply nonempty_of_length; rewrite length_skipn; lia).
      apply Z.ltb_lt in Hlt. rewrite Hlt. reflexivity.
  - intros Hwf.
    destruct (checkCaveats_returns_each amountWei (now_seconds now_ms) (caveats d)) with
      (errs := @nil TransferError) as [errs E].
    + intros c' Hc' errs. destruct (Hwf c' Hc') as [-> | Hw].
      * rewrite checkCaveat_amount by
          (auto; apply nonempty_of_length; rewrite length_skipn; lia). eauto.
      * apply checkCaveat_returns_wf. exact Hw.
    + rewrite E. cbn [bind]. eauto.
Qed.

Lemma validateTransfer_amount_terms_length_unchecked_witness :
  let c := mkCaveat DELEGATION_FRAMEWORK.ERC20TransferAmountEnforcer
             (be_bytes 53 100000000) [] in
  let d := Sample.root_delegation
             [mkCaveat DELEGATION_FRAMEWORK.ValueLteEnforcer (encodeValueLteTerms 0) []; c] in
  ((List.length (terms c) <= 20)%nat ->
   validateTransfer d Sample.carol 200000000 Sample.now_ms = Throws SyntaxError) /\
  ((20 < List.length (terms c))%nat ->
   (forall r, validateTransfer d Sample.carol 200000000 Sample.now_ms = Returns r ->
      (In (TransferAmountExceedsLimit (be_value (skipn 20 (terms c)))) (errors r) <->
       be_value (skipn 20 (terms c)) < 200000000)) /\
   ((forall c', In c' (caveats d) -> c' = c \/ wf_caveat c') ->
    exists r, validateTransfer d Sample.carol 200000000 Sample.now_ms = Returns r)).
Proof.
  intros c d.
  apply validateTransfer_amount_terms_length_unchecked.
  - simpl. right. left. reflexivity.
  - reflexivity.
Defined.

(** C3 fails: amount-limit terms one byte too long (a trailing zero byte)
    are decoded without error, the limit read from them is 256 times the
    encoded one, and a transfer above the encoded limit passes. *)
Lemma malformed_amount_terms_counterexample :
  List.length (be_bytes 20 USDC_ADDRESS ++ be_bytes 32 100000000 ++ [x00]) = 53%nat /\
  validateTransfer
    (Sample.root_delegation
       [mkCaveat DELEGATION_FRAMEWORK.ERC20TransferAmountEnforcer
          (be_bytes 20 USDC_ADDRESS ++ be_bytes 32 100000000 ++ [x00]) []])
    Sample.carol 200000000 Sample.now_ms
  = Returns (mkResult true []).
Proof. split; vm_compute; reflexivity. Qed.

(** C4 (as amended): the Scope Validator never reads the token identifier
    of the parent's amount-limit caveat (the child's request names no token;
    its amount is taken in USDC minor units): rewriting that token to any
    other address leaves the result unchanged, so a limit on another token
    is compared with the child's amount as if it were the same token. *)
Theorem scope_validator_ignores_amount_token
    (parent : Delegation) (tok : Z) (params : SubDelegationParams) (now_ms : Z) :
  validateSubDelegationScope
    (with_caveats parent (map (set_amount_token tok) (caveats parent))) params now_ms =
  validateSubDelegationScope parent params now_ms.
Proof.
  unfold validateSubDelegationScope.
  rewrite checkAmountScope_set_amount_token.
  destruct (checkAmountScope parent params []); cbn [bind]; [|reflexivity].
  rewrite checkExpiryScope_set_amount_token. reflexivity.
Qed.

(** C4 fails: a parent limit of 1000 units of another token is compared
    with a child's request of 300 USDC, and the request is accepted with no
    error. *)
Lemma cross_token_compared_counterexample :
  Sample.other_token <> USDC_ADDRESS /\
  encodeERC20TransferAmountTerms Sample.other_token 1000000000 =
    Returns (be_bytes 20 Sample.other_token ++ be_bytes 32 1000000000) /\
  validateSubDelegationScope
    (Sample.root_delegation
       [mkCaveat DELEGATION_FRAMEWORK.ERC20TransferAmountEnforcer
          (be_bytes 20 Sample.other_token ++ be_bytes 32 1000000000) []])
    (mkSubParams (Some 300000000) None) Sample.now_ms
  = Returns (mkResult true []).
Proof.
  split; [apply Z.eqb_neq; reflexivity|].
  split; vm_compute; reflexivity.
Qed.

(** C5 fails: no step of assembly checks chain integrity. A child whose
    [authority] is not the delegation hash of its parent is still encoded,
    by the library and by the redemption script alike. *)
Lemma broken_link_assembled_counterexample :
  let parent := Sample.root_delegation [] in
  let child := mkDelegation Sample.carol Sample.bob
                 (match getDelegationHash Sample.keccak256 parent with
                  | Returns h => h + 1
                  | Throws _ => 0
                  end) [] Sample.now_ms [] in
  ~ chain_linked Sample.keccak256 [child; parent] /\
  encodePermissionContext [child; parent] =
    Returns (JsonText [encodeDelegationEntry child; encodeDelegationEntry parent]) /\
  buildPermissionContext [child; parent] =
    Returns (HexOfJsonText [encodeDelegationEntry child; encodeDelegationEntry parent]).
Proof.
  cbv zeta. split; [|split; reflexivity].
  cbn [chain_linked authority].
  destruct (getDelegationHash Sample.keccak256 (Sample.root_delegation [])) as [h|e].
  - intros [H _]. apply Returns_inj in H. lia.
  - intros [H _]. discriminate H.
Qed.

(** C5 (as amended): assembly performs no chain-integrity check and never
    fails. For every sequence of delegations, linked or not,
    encodePermissionContext returns the encoding of every record in order,
    each [authority] copied unchanged, and the redemption script's
    buildPermissionContext returns the same records as hex text. A broken
    link is left to the external verifier. *)
Theorem permission_context_never_checks_links (chain : list Delegation) :
  exists ctx,
    encodePermissionContext chain = Returns (JsonText ctx) /\
    buildPermissionContext chain = Returns (HexOfJsonText ctx) /\
    List.length ctx = List.length chain /\
    map e_authority ctx = map authority chain.
Proof.
  exists (map encodeDelegationEntry chain).
  split; [reflexivity|]. split; [reflexivity|].
  split; [apply length_map|].
  rewrite map_map. reflexivity.
Qed.

(** C8 fails at a supplied amount of 0: [if (amount)] treats 0 as absent,
    so the amount-limit caveat is dropped and the delegation has no
    transfer limit, although the amount is supplied (the command line
    demands it). The value-ceiling and time-window caveats keep their
    order. *)
Theorem zero_amount_drops_amount_caveat :
  exists d,
    buildDelegation (mkBuildParams Sample.alice Sample.bob None (Some 0) (Some 86400))
                    Sample.now_ms = Returns d /\
    map enforcer (caveats d) =
      [DELEGATION_FRAMEWORK.ValueLteEnforcer; DELEGATION_FRAMEWORK.TimestampEnforcer].
Proof.
  eexists. split; [vm_compute; reflexivity|].
  vm_compute. reflexivity.
Qed.

(** C9 fails: the salt is the clock reading [BigInt(Date.now())] with no
    counter, so two calls in the same millisecond with the same parameters
    give the same salt and the same delegation hash. *)
Lemma same_millisecond_salt_counterexample :
  let params := mkBuildParams Sample.alice Sample.bob None (Some 1000000) (Some 86400) in
  exists d1 d2,
    buildDelegation params Sample.now_ms = Returns d1 /\
    buildDelegation params Sample.now_ms = Returns d2 /\
    salt d1 = salt d2 /\
    getDelegationHash Sample.keccak256 d1 = getDelegationHash Sample.keccak256 d2.
Proof.
  cbv zeta. eexists; eexists.
  split; [vm_compute; reflexivity|].
  split; [vm_compute; reflexivity|].
  split; reflexivity.
Qed.

(** C9 (as amended): the Delegation Builder enforces no increasing salts;
    a built delegation's salt is exactly the clock reading in milliseconds
    passed to it, so calls in the same millisecond share a salt. *)
Theorem buildDelegation_salt_is_clock (params : BuildParams) (now_ms : Z) (d : Delegation)
    (H : buildDelegation params now_ms = Returns d) :
  salt d = now_ms.
Proof. exact (buildDelegation_salt_eq params now_ms d H). Qed.

Lemma buildDelegation_salt_is_clock_witness :
  exists d,
    buildDelegation (mkBuildParams Sample.alice Sample.bob None (Some 1000000) (Some 86400))
                    Sample.now_ms = Returns d /\
    salt d = Sample.now_ms.
Proof.
  eexists. split; [vm_compute; reflexivity|].
  apply (buildDelegation_salt_is_clock
           (mkBuildParams Sample.alice Sample.bob None (Some 1000000) (Some 86400))
           Sample.now_ms).
  vm_compute. reflexivity.
Defined.

(** * Further properties of the library and the scripts *)

(** ** What [buildDelegation] returns, written out *)

Lemma buildDelegation_inv (params : BuildParams) (now_ms : Z) (d : Delegation) :
  buildDelegation params now_ms = Returns d ->
  delegate d = p_delegate params /\ delegator d = p_delegator params /\
  authority d = match p_authority params with Some a => a | None => ROOT_AUTHORITY end /\
  salt d = now_ms /\ signature d = [] /\
  caveats d = mkCaveat DELEGATION_FRAMEWORK.ValueLteEnforcer (encodeValueLteTerms 0) []
              :: built_amount_caveats (p_amount params) ++
                 built_expiry_caveats (p_expirySeconds params) now_ms /\
  (forall a, p_amount params = Some a -> a <> 0 -> 0 <= a < 2 ^ 256) /\
  (forall e, p_expirySeconds params = Some e -> e <> 0 ->
             0 <= to_number (now_seconds now_ms + e) < 2 ^ 128).
Proof.
  unfold buildDelegation, encodeERC20TransferAmountTerms, encodeTimestampTerms.
  cbv beta iota zeta.
  unfold built_amount_caveats, built_expiry_caveats.
  destruct (p_amount params) as [a|]; cbn [truthy];
  [destruct (Z.eqb_spec a 0) as [Ea|Ea]; cbn [negb];
   [|destruct (packed_uint 32 a) as [ta|] eqn:Ta]|]; cbn [bind]; try discriminate;
  (destruct (p_expirySeconds params) as [e|]; cbn [truthy];
   [destruct (Z.eqb_spec e 0) as [Ee|Ee]; cbn [negb];
    [|destruct (packed_uint 16 (to_number (now_seconds now_ms + e))) as [te|] eqn:Te;
      [destruct (packed_uint 16 0) as [tm|] eqn:Tm|]]|]);
  cbn [bind]; intros H; try discriminate; apply Returns_inj in H; subst d;
  repeat (apply packed_uint_inv in Ta as [-> ?]) ;
  repeat (apply packed_uint_inv in Te as [-> ?]) ;
  repeat (apply packed_uint_inv in Tm as [-> ?]) ;
  cbn [delegate delegator authority salt signature caveats];
  do 6 (split; [reflexivity|]);
  split; intros x Hx Hn; try discriminate; injection Hx as <-; try contradiction;
  change (8 * Z.of_nat 32) with 256 in *; change (8 * Z.of_nat 16) with 128 in *; lia.
Qed.

(** ** Rounding keeps the sign *)

Lemma round_nonneg_pos (x : Z) : 0 < x -> 0 < round_nonneg x.
Proof.
  intros Hx. unfold round_nonneg.
  destruct (x <? 2 ^ 53) eqn:E; [exact Hx|]. apply Z.ltb_ge in E.
  cbv zeta.
  assert (Hl : 53 <= Z.log2 x).
  { apply Z.log2_le_pow2; lia. }
  assert (Hk : 0 < 2 ^ (Z.log2 x - 52)) by (apply Z.pow_pos_nonneg; lia).
  assert (Hle : 2 ^ (Z.log2 x - 52) <= x).
  { pose proof (Z.log2_spec x Hx) as [H1 _].
    apply Z.le_trans with (2 ^ Z.log2 x); [apply Z.pow_le_mono_r; lia | exact H1]. }
  assert (Hq : 0 < x / 2 ^ (Z.log2 x - 52)) by (apply Z.div_str_pos; lia).
  destruct (_ <? _); [|destruct (_ =? _); [destruct (Z.even _)|]]; nia.
Qed.

Lemma to_number_neg (x : Z) : x < 0 -> to_number x < 0.
Proof.
  intros Hx. unfold to_number.
  replace (x <? 0) with true by (symmetry; apply Z.ltb_lt; exact Hx).
  pose proof (round_nonneg_pos (- x)). lia.
Qed.

Lemma to_number_nonneg_small (x : Z) :
  x < 2 ^ 53 -> 0 <= to_number x -> to_number x = x /\ 0 <= x.
Proof.
  intros H1 H2. destruct (Z.ltb_spec x 0) as [Hn|Hn].
  - pose proof (to_number_neg x Hn). lia.
  - split; [apply to_number_small; lia | exact Hn].
Qed.

(** ** Encodings that succeed *)

Lemma packed_uint_ok (n : nat) (x : Z) :
  0 <= x < 2 ^ (8 * Z.of_nat n) -> packed_uint n x = Returns (be_bytes n x).
Proof.
  intros H. unfold packed_uint.
  replace (0 <=? x) with true by (symmetry; apply Z.leb_le; lia).
  replace (x <? 2 ^ (8 * Z.of_nat n)) with true by (symmetry; apply Z.ltb_lt; lia).
  reflexivity.
Qed.

Lemma abi_slot_ok (n : nat) (x : Z) :
  0 <= x < 2 ^ (8 * Z.of_nat n) -> abi_slot n x = Returns (be_bytes 32 x).
Proof.
  intros H. unfold abi_slot.
  replace (0 <=? x) with true by (symmetry; apply Z.leb_le; lia).
  replace (x <? 2 ^ (8 * Z.of_nat n)) with true by (symmetry; apply Z.ltb_lt; lia).
  reflexivity.
Qed.

Lemma abi_slot_inv (n : nat) (x : Z) (w : list byte) :
  abi_slot n x = Returns w -> w = be_bytes 32 x /\ 0 <= x < 2 ^ (8 * Z.of_nat n).
Proof.
  unfold abi_slot. destruct (0 <=? x) eqn:E1, (x <? 2 ^ (8 * Z.of_nat n)) eqn:E2;
    cbn [andb]; intros H; try discriminate.
  apply Returns_inj in H. subst w. apply Z.leb_le in E1. apply Z.ltb_lt in E2.
  split; [reflexivity | lia].
Qed.

Lemma abi_slot_iff (n : nat) (x : Z) :
  (exists w, abi_slot n x = Returns w) <-> 0 <= x < 2 ^ (8 * Z.of_nat n).
Proof.
  split.
  - intros [w H]. exact (proj2 (abi_slot_inv _ _ _ H)).
  - intros H. eexists. apply abi_slot_ok. exact H.
Qed.

Lemma be_value_be_bytes_pow (n : nat) (x : Z) :
  0 <= x < 2 ^ (8 * Z.of_nat n) -> be_value (be_bytes n x) = x.
Proof. intros H. apply be_value_be_bytes_small. rewrite pow256. exact H. Qed.

(** ** Cutting a list at the borders of its pieces *)

Lemma slice_block {A} (l1 l2 l3 : list A) :
  firstn (List.length l1 + List.length l2 - List.length l1)
         (skipn (List.length l1) (l1 ++ l2 ++ l3)) = l2.
Proof.
  rewrite skipn_length_app.
  replace (List.length l1 + List.length l2 - List.length l1)%nat with (List.length l2) by lia.
  apply firstn_length_app.
Qed.

Lemma slice_at {A} (a n : nat) (l1 l2 l3 : list A) :
  List.length l1 = a -> List.length l2 = n ->
  firstn (a + n - a) (skipn a (l1 ++ l2 ++ l3)) = l2.
Proof. intros <- <-. apply slice_block. Qed.

(** ** The caveats of a built delegation under the Transfer Validator *)

Lemma enforcer_VL_ne :
  DELEGATION_FRAMEWORK.ValueLteEnforcer <> DELEGATION_FRAMEWORK.ERC20TransferAmountEnforcer /\
  DELEGATION_FRAMEWORK.ValueLteEnforcer <> DELEGATION_FRAMEWORK.TimestampEnforcer.
Proof. split; apply Z.eqb_neq; reflexivity. Qed.

Lemma checkCaveats_built_amount (amount : option Z) (x now : Z) (errs : list TransferError) :
  (forall a, amount = Some a -> a <> 0 -> 0 <= a < 2 ^ 256) ->
  checkCaveats x now errs (built_amount_caveats amount) =
  Returns (errs ++ match amount with
                   | Some a => if truthy (Some a) && (a <? x)
                               then [TransferAmountExceedsLimit a] else []
                   | None => []
                   end).
Proof.
  intros Hr. unfold built_amount_caveats.
  destruct amount as [a|]; [|cbn; rewrite app_nil_r; reflexivity].
  cbn [truthy]. destruct (Z.eqb_spec a 0) as [Ea|Ea]; cbn [negb andb];
    [cbn; rewrite app_nil_r; reflexivity|].
  specialize (Hr a eq_refl Ea).
  assert (Hs : skipn 20 (be_bytes 20 USDC_ADDRESS ++ be_bytes 32 a) = be_bytes 32 a).
  { pose proof (skipn_length_app (be_bytes 20 USDC_ADDRESS) (be_bytes 32 a)) as H.
    rewrite length_be_bytes in H. exact H. }
  cbn [checkCaveats]. rewrite checkCaveat_amount; cycle 1.
  - reflexivity.
  - cbn [terms]. rewrite Hs. apply nonempty_of_length. rewrite length_be_bytes. lia.
  - cbn [bind checkCaveats terms]. rewrite Hs, be_value_be_bytes_pow by exact Hr.
    destruct (a <? x); [reflexivity | rewrite app_nil_r; reflexivity].
Qed.

Lemma checkCaveats_built_expiry (expirySeconds : option Z) (now_ms x now : Z)
    (errs : list TransferError) :
  (forall e, expirySeconds = Some e -> e <> 0 ->
             0 <= to_number (now_seconds now_ms + e) < 2 ^ 128) ->
  (forall e, expirySeconds = Some e -> now_seconds now_ms + e < 2 ^ 53) ->
  checkCaveats x now errs (built_expiry_caveats expirySeconds now_ms) =
  Returns (errs ++ match expirySeconds with
                   | Some e => if truthy (Some e) && (now_seconds now_ms + e <=? now)
                               then [DelegationHasExpired] else []
                   | None => []
                   end).
Proof.
  intros Hr Hs. unfold built_expiry_caveats.
  destruct expirySeconds as [e|]; [|cbn; rewrite app_nil_r; reflexivity].
  cbn [truthy]. destruct (Z.eqb_spec e 0) as [Ee|Ee]; cbn [negb andb];
    [cbn; rewrite app_nil_r; reflexivity|].
  specialize (Hr e eq_refl Ee). specialize (Hs e eq_refl).
  destruct (to_number_nonneg_small _ Hs (proj1 Hr)) as [Ht Hp].
  assert (Henc : encodeTimestampTerms (to_number (now_seconds now_ms + e)) true =
                 Returns (be_bytes 16 (to_number (now_seconds now_ms + e)) ++ be_bytes 16 0)).
  { unfold encodeTimestampTerms. cbv beta iota zeta.
    rewrite !packed_uint_ok by (change (8 * Z.of_nat 16) with 128; lia). reflexivity. }
  apply encodeTimestamp_inv in Henc as (_ & Hs0 & Hs1 & Hv0 & Hv1).
  cbn [checkCaveats]. rewrite checkCaveat_timestamp; cycle 1.
  - reflexivity.
  - cbn [terms]. rewrite Hs0. apply nonempty_of_length. rewrite length_be_bytes. lia.
  - cbn [terms]. rewrite Hs1. apply nonempty_of_length. rewrite length_be_bytes. lia.
  - cbn [bind checkCaveats terms]. rewrite Hv0, Hv1, !Ht.
    change (to_number 0 =? 0) with true. cbn [andb].
    destruct (now_seconds now_ms + e <=? now); [reflexivity | rewrite app_nil_r; reflexivity].
Qed.

(** ** Durations *)

Lemma digit_value_range (c : ascii) : is_digit c = true -> 0 <= digit_value c <= 9.
Proof.
  unfold is_digit, digit_value. intros H.
  apply andb_true_iff in H as [H1 H2]. apply Nat.leb_le in H1, H2. lia.
Qed.

Lemma digits_value_acc (ds : list ascii) (acc : Z) :
  Forall (fun c => is_digit c = true) ds -> 0 <= acc ->
  acc <= fold_left (fun acc c => acc * 10 + digit_value c) ds acc.
Proof.
  revert acc. induction ds as [|c ds IH]; intros acc Hd Ha; simpl; [lia|].
  inversion Hd as [|? ? Hc Hds]; subst.
  pose proof (digit_value_range c Hc).
  specialize (IH (acc * 10 + digit_value c) Hds ltac:(lia)). lia.
Qed.

Lemma digits_value_nonneg (ds : list ascii) :
  Forall (fun c => is_digit c = true) ds -> 0 <= digits_value ds.
Proof. intros H. exact (digits_value_acc ds 0 H (Z.le_refl 0)). Qed.

Lemma digits_value_zeros (ds : list ascii) :
  Forall (fun c => c = "0"%char) ds -> digits_value ds = 0.
Proof.
  unfold digits_value. induction ds as [|c ds IH]; intros H; [reflexivity|].
  inversion H as [|? ? Hc Hds]; subst. cbn [fold_left]. exact (IH Hds).
Qed.

Lemma units_iff (unit : ascii) :
  (Ascii.eqb unit "s" || Ascii.eqb unit "m" || Ascii.eqb unit "h" || Ascii.eqb unit "d")%bool
  = true <-> In unit ["s"; "m"; "h"; "d"]%char.
Proof.
  rewrite !orb_true_iff, !Ascii.eqb_eq. simpl. intuition congruence.
Qed.

Lemma multipliers_units (unit : ascii) :
  In unit ["s"; "m"; "h"; "d"]%char -> exists m, multipliers unit = Some m /\ 1 <= m.
Proof.
  simpl. intros [<-|[<-|[<-|[<-|[]]]]]; eexists; split; try reflexivity; lia.
Qed.

Lemma forallb_digits (ds : list ascii) :
  forallb is_digit ds = true <-> Forall (fun c => is_digit c = true) ds.
Proof. rewrite forallb_forall, Forall_forall. tauto. Qed.

(** The regular expression on a string of the form digits-then-unit. *)
Lemma duration_match_split (ds : list ascii) (unit : ascii) :
  ds <> [] -> Forall (fun c => is_digit c = true) ds ->
  In unit ["s"; "m"; "h"; "d"]%char ->
  duration_match (string_of_list_ascii (ds ++ [unit])) = Some (ds, unit).
Proof.
  intros Hne Hd Hu. unfold duration_match.
  rewrite list_ascii_of_string_of_list_ascii, rev_app_distr. cbn [rev app].
  rewrite rev_involutive.
  replace (negb (Nat.eqb (List.length ds) 0)) with true
    by (destruct ds; [congruence | reflexivity]).
  apply forallb_digits in Hd. apply units_iff in Hu. rewrite Hd, Hu. reflexivity.
Qed.

Lemma number_of_nonneg_small (x : Z) : 0 <= x < 2 ^ 53 -> number_of_nonneg x = Finite x.
Proof.
  intros H. unfold number_of_nonneg. rewrite to_number_small by exact H.
  replace (x <? 2 ^ 1024) with true by (symmetry; apply Z.ltb_lt; lia). reflexivity.
Qed.

Lemma parseDuration_split (ds : list ascii) (unit : ascii) (m : Z) :
  ds <> [] -> Forall (fun c => is_digit c = true) ds -> multipliers unit = Some m ->
  parseDuration (string_of_list_ascii (ds ++ [unit])) =
  Seconds (mul_number (parseInt_digits ds) m).
Proof.
  intros Hne Hd Hm.
  assert (Hu : In unit ["s"; "m"; "h"; "d"]%char).
  { unfold multipliers in Hm. simpl.
    destruct (Ascii.eqb_spec unit "s"); [auto|].
    destruct (Ascii.eqb_spec unit "m"); [auto|].
    destruct (Ascii.eqb_spec unit "h"); [auto|].
    destruct (Ascii.eqb_spec unit "d"); [auto | discriminate]. }
  unfold parseDuration. rewrite (duration_match_split ds unit Hne Hd Hu), Hm. reflexivity.
Qed.

Lemma multipliers_pos (unit : ascii) (m : Z) : multipliers unit = Some m -> 1 <= m.
Proof.
  unfold multipliers. intros H.
  repeat (destruct (Ascii.eqb _ _) in H; [injection H as <-; lia|]). discriminate.
Qed.

Lemma multipliers_units_of (unit : ascii) (m : Z) :
  multipliers unit = Some m -> In unit ["s"; "m"; "h"; "d"]%char.
Proof.
  unfold multipliers. simpl.
  destruct (Ascii.eqb_spec unit "s"); [auto|].
  destruct (Ascii.eqb_spec unit "m"); [auto|].
  destruct (Ascii.eqb_spec unit "h"); [auto|].
  destruct (Ascii.eqb_spec unit "d"); [auto | discriminate].
Qed.

Lemma duration_match_some (s : string) (ds : list ascii) (unit : ascii) :
  duration_match s = Some (ds, unit) ->
  list_ascii_of_string s = ds ++ [unit] /\ ds <> [] /\
  Forall (fun c => is_digit c = true) ds /\ In unit ["s"; "m"; "h"; "d"]%char.
Proof.
  unfold duration_match.
  destruct (rev (list_ascii_of_string s)) as [|u r] eqn:E; [discriminate|].
  destruct (negb (Nat.eqb (List.length (rev r)) 0) && forallb is_digit (rev r)
            && (Ascii.eqb u "s" || Ascii.eqb u "m" || Ascii.eqb u "h" || Ascii.eqb u "d"))
    eqn:C; [|discriminate].
  intros H. injection H as <- <-.
  apply andb_true_iff in C as [C Hu]. apply andb_true_iff in C as [Hn Hd].
  split; [|split; [|split]].
  - rewrite <- (rev_involutive (list_ascii_of_string s)), E. reflexivity.
  - intros Hr. rewrite Hr in Hn. discriminate.
  - apply forallb_digits. exact Hd.
  - apply units_iff. exact Hu.
Qed.

Lemma parseDuration_split_exact (ds : list ascii) (unit : ascii) (m : Z) :
  ds <> [] -> Forall (fun c => is_digit c = true) ds -> multipliers unit = Some m ->
  digits_value ds * m < 2 ^ 53 ->
  parseDuration (string_of_list_ascii (ds ++ [unit])) = Seconds (Finite (digits_value ds * m)).
Proof.
  intros Hne Hd Hm Hb.
  rewrite (parseDuration_split ds unit m Hne Hd Hm).
  pose proof (digits_value_nonneg ds Hd) as H0. pose proof (multipliers_pos unit m Hm) as H1.
  unfold parseInt_digits. rewrite number_of_nonneg_small by nia.
  cbn [mul_number]. rewrite number_of_nonneg_small by nia. reflexivity.
Qed.



(** ** The Transfer Validator on a delegation the builder made *)

(** X1: on a delegation returned by [buildDelegation], [validateTransfer]
    reports exactly two things: the amount when it exceeds the built
    amount limit, and the expiry when the built expiry timestamp (build
    time in seconds plus [expirySeconds]) is at or before the check time.
    The ValueLte caveat the builder always adds is skipped by the loop. *)
Theorem validateTransfer_of_built (params : BuildParams) (now_build now_check to x : Z)
    (d : Delegation) :
  buildDelegation params now_build = Returns d ->
  (forall e, p_expirySeconds params = Some e -> now_seconds now_build + e < 2 ^ 53) ->
  validateTransfer d to x now_check =
  Returns (result_of
    ((match p_amount params with
      | Some a => if truthy (Some a) && (a <? x) then [TransferAmountExceedsLimit a] else []
      | None => []
      end) ++
     (match p_expirySeconds params with
      | Some e => if truthy (Some e) && (now_seconds now_build + e <=? now_seconds now_check)
                  then [DelegationHasExpired] else []
      | None => []
      end))).
Proof.
  intros Hb Hs. apply buildDelegation_inv in Hb as (_ & _ & _ & _ & _ & Hc & Ha & He).
  unfold validateTransfer. cbv zeta. rewrite Hc. cbn [checkCaveats].
  rewrite checkCaveat_other by (cbn [enforcer]; apply enforcer_VL_ne).
  cbn [bind]. rewrite checkCaveats_app, checkCaveats_built_amount by exact Ha.
  cbn [bind]. rewrite checkCaveats_built_expiry by assumption.
  cbn [bind app]. reflexivity.
Qed.

Lemma validateTransfer_of_built_witness :
  exists d,
    buildDelegation (mkBuildParams Sample.alice Sample.bob None (Some 1000000) (Some 86400))
                    Sample.now_ms = Returns d /\
    validateTransfer d Sample.carol 2000000 (Sample.now_ms + 86400000) =
    Returns (result_of [TransferAmountExceedsLimit 1000000; DelegationHasExpired]).
Proof.
  eexists. split; [vm_compute; reflexivity|].
  rewrite (validateTransfer_of_built
             (mkBuildParams Sample.alice Sample.bob None (Some 1000000) (Some 86400))
             Sample.now_ms (Sample.now_ms + 86400000) Sample.carol 2000000).
  - vm_compute. reflexivity.
  - vm_compute. reflexivity.
  - intros e He. cbn in He. injection He as <-. vm_compute. reflexivity.
Defined.

(** ** The security summary of [check-scope.mjs] *)

Lemma has_enforcer_map (enf : Z) (d : Delegation) :
  has_enforcer enf d = existsb (fun e => e =? enf) (map enforcer (caveats d)).
Proof.
  unfold has_enforcer. induction (caveats d) as [|c cs IH]; simpl; [reflexivity|].
  rewrite IH. reflexivity.
Qed.

Lemma securitySummary_built_eq (params : BuildParams) (now_ms : Z) (d : Delegation) :
  buildDelegation params now_ms = Returns d ->
  securitySummary d = (truthy (p_amount params), truthy (p_expirySeconds params), true).
Proof.
  intros Hb. unfold securitySummary. rewrite !has_enforcer_map.
  rewrite (buildDelegation_enforcers params now_ms d Hb).
  destruct (truthy (p_amount params)), (truthy (p_expirySeconds params)); reflexivity.
Qed.

(** X2: the security summary of a delegation returned by [buildDelegation]
    always reports ETH prevention; it reports an amount limit exactly when
    the amount was truthy and an expiry exactly when [expirySeconds] was. *)
Theorem securitySummary_of_built (params : BuildParams) (now_ms : Z) (d : Delegation) :
  buildDelegation params now_ms = Returns d ->
  securitySummary d = (truthy (p_amount params), truthy (p_expirySeconds params), true).
Proof. exact (securitySummary_built_eq params now_ms d). Qed.

Lemma securitySummary_of_built_witness :
  exists d,
    buildDelegation (mkBuildParams Sample.alice Sample.bob None (Some 0) (Some 86400))
                    Sample.now_ms = Returns d /\
    securitySummary d = (false, true, true).
Proof.
  eexists. split; [vm_compute; reflexivity|].
  apply (securitySummary_of_built
           (mkBuildParams Sample.alice Sample.bob None (Some 0) (Some 86400)) Sample.now_ms).
  vm_compute. reflexivity.
Defined.

(** ** [parseDuration] *)

(** X3: a string made of a non-empty run of ASCII digits followed by one of
    the units s, m, h, d parses to the decimal value of the digits times
    the unit's number of seconds (1, 60, 3600, 86400), when that product is
    below 2^53. *)
Theorem parseDuration_digits_unit (ds : list ascii) (unit : ascii) (m : Z) :
  ds <> [] -> Forall (fun c => is_digit c = true) ds -> multipliers unit = Some m ->
  digits_value ds * m < 2 ^ 53 ->
  parseDuration (string_of_list_ascii (ds ++ [unit])) = Seconds (Finite (digits_value ds * m)).
Proof. exact (parseDuration_split_exact ds unit m). Qed.

Lemma parseDuration_digits_unit_witness :
  parseDuration "24h"%string = Seconds (Finite (digits_value ["2"; "4"]%char * 3600)).
Proof.
  apply (parseDuration_digits_unit ["2"; "4"]%char "h"%char 3600).
  - discriminate.
  - repeat constructor.
  - reflexivity.
  - vm_compute. reflexivity.
Defined.

(** X4: [parseDuration] throws its "Invalid duration format" error exactly
    when the string is not a non-empty run of ASCII digits followed by one
    of the characters s, m, h, d (so the empty string, a missing unit, a
    sign, a decimal point, spaces or an upper-case unit are all refused). *)
Theorem parseDuration_invalid_iff (s : string) :
  parseDuration s = InvalidDurationFormat <->
  ~ exists ds unit, list_ascii_of_string s = ds ++ [unit] /\ ds <> [] /\
                    Forall (fun c => is_digit c = true) ds /\
                    In unit ["s"; "m"; "h"; "d"]%char.
Proof.
  unfold parseDuration. split.
  - intros H (ds & unit & Hs & Hne & Hd & Hu).
    rewrite <- (string_of_list_ascii_of_string s), Hs, duration_match_split in H
      by assumption.
    destruct (multipliers unit); discriminate.
  - intros Hn. destruct (duration_match s) as [[ds unit]|] eqn:E; [|reflexivity].
    exfalso. apply Hn. exists ds, unit. exact (duration_match_some s ds unit E).
Qed.

(** X5: a duration whose digits are all zeros ("0h", "00s", ...) parses to
    0 seconds, which [create-delegation.mjs] passes to [buildDelegation]
    as a falsy [expirySeconds]: the delegation it creates has no expiry
    caveat, and its security summary reports no expiry. *)
Theorem createDelegation_zero_duration (account delegate amount : Z) (ds : list ascii)
    (unit : ascii) (now_ms : Z) (d : Delegation) :
  ds <> [] -> Forall (fun c => c = "0"%char) ds -> In unit ["s"; "m"; "h"; "d"]%char ->
  createDelegation account delegate amount (string_of_list_ascii (ds ++ [unit])) now_ms
    = Some d ->
  securitySummary d = (negb (amount =? 0), false, true).
Proof.
  intros Hne Hz Hu Hc.
  destruct (multipliers_units unit Hu) as (m & Hm & Hm1).
  assert (Hd : Forall (fun c => is_digit c = true) ds).
  { eapply Forall_impl; [|exact Hz]. intros c ->. reflexivity. }
  assert (Hp : parseDuration (string_of_list_ascii (ds ++ [unit])) = Seconds (Finite 0)).
  { rewrite (parseDuration_split_exact ds unit m Hne Hd Hm);
      rewrite digits_value_zeros by exact Hz; [reflexivity | lia]. }
  unfold createDelegation in Hc. rewrite Hp in Hc. cbn [expiry_param] in Hc.
  destruct (buildDelegation _ now_ms) as [d'|] eqn:Hb; [|discriminate].
  injection Hc as <-. rewrite (securitySummary_built_eq _ _ _ Hb). reflexivity.
Qed.

Lemma createDelegation_zero_duration_witness :
  exists d,
    createDelegation Sample.alice Sample.bob 1000000 "0h"%string Sample.now_ms = Some d /\
    securitySummary d = (negb (1000000 =? 0), false, true).
Proof.
  eexists. split; [vm_compute; reflexivity|].
  apply (createDelegation_zero_duration Sample.alice Sample.bob 1000000 ["0"]%char "h"%char
           Sample.now_ms).
  - discriminate.
  - repeat constructor.
  - simpl. auto.
  - vm_compute. reflexivity.
Defined.

(** ** The sub-delegation script *)

Lemma createSubDelegation_inv (keccak256 : list byte -> Z) (parent : Delegation)
    (account subdelegate amount : Z) (expiry : string) (now_validate now_build : Z)
    (d : Delegation) :
  createSubDelegation keccak256 parent account subdelegate amount expiry
                      now_validate now_build = Some d ->
  exists v r h,
    account = delegate parent /\
    parseDuration expiry = Seconds v /\ v <> PosInfinity /\
    validateSubDelegationScope parent (mkSubParams (Some amount) (expiry_param v))
                               now_validate = Returns r /\
    valid r = true /\
    hashDelegation keccak256 parent = Returns h /\
    buildDelegation (mkBuildParams account subdelegate (Some h) (Some amount)
                                   (expiry_param v)) now_build = Returns d.
Proof.
  unfold createSubDelegation.
  destruct (Z.eqb_spec account (delegate parent)) as [Ha|Ha]; cbn [negb];
    [|discriminate].
  destruct (parseDuration expiry) as [v|] eqn:Ep; [|discriminate].
  destruct v as [e| |]; [| discriminate |];
  (destruct (validateSubDelegationScope _ _ _) as [r|] eqn:Ev; [|discriminate];
   destruct (valid r) eqn:Er; cbn [negb]; [|discriminate];
   destruct (hashDelegation keccak256 parent) as [h|] eqn:Eh; [|discriminate];
   destruct (buildDelegation _ _) as [d'|] eqn:Eb; intros H; [|discriminate];
   injection H as <-; do 3 eexists; repeat split; eauto; discriminate).
Qed.

Lemma valid_result_of {E} (errs : list E) : valid (result_of errs) = true -> errs = [].
Proof. destruct errs; [reflexivity | discriminate]. Qed.

Lemma validateSubDelegationScope_valid (parent : Delegation) (params : SubDelegationParams)
    (now_ms : Z) (r : ValidationResult ScopeError) :
  validateSubDelegationScope parent params now_ms = Returns r -> valid r = true ->
  checkAmountScope parent params [] = Returns [] /\
  checkExpiryScope parent params now_ms [] = Returns [].
Proof.
  unfold validateSubDelegationScope. cbv zeta.
  destruct (checkAmountScope parent params []) as [e1|] eqn:E1; cbn [bind]; [|discriminate].
  destruct (checkExpiryScope parent params now_ms e1) as [e2|] eqn:E2; cbn [bind];
    [|discriminate].
  intros H Hv. apply Returns_inj in H. subst r. apply valid_result_of in Hv. subst e2.
  destruct (checkExpiryScope_shape _ _ _ _ _ E2) as [Hs|Hs].
  - subst e1. auto.
  - destruct e1; discriminate.
Qed.

Lemma findCaveat_built_amount (amount : Z) (ex : list Caveat) :
  amount <> 0 -> 0 <= amount < 2 ^ 256 ->
  exists c,
    findCaveat DELEGATION_FRAMEWORK.ERC20TransferAmountEnforcer
      (mkCaveat DELEGATION_FRAMEWORK.ValueLteEnforcer (encodeValueLteTerms 0) []
       :: built_amount_caveats (Some amount) ++ ex) = Some c /\
    be_value (skipn 20 (terms c)) = amount.
Proof.
  intros Hn Hr. unfold built_amount_caveats. cbn [truthy].
  replace (amount =? 0) with false by (symmetry; apply Z.eqb_neq; exact Hn). cbn [negb].
  eexists. split; [reflexivity|]. cbn [terms].
  pose proof (skipn_length_app (be_bytes 20 USDC_ADDRESS) (be_bytes 32 amount)) as Hs.
  rewrite length_be_bytes in Hs. rewrite Hs. apply be_value_be_bytes_pow. exact Hr.
Qed.

Lemma to_number_nonneg (x : Z) : 0 <= x -> 0 <= to_number x.
Proof.
  intros Hx. unfold to_number.
  replace (x <? 0) with false by (symmetry; apply Z.ltb_ge; exact Hx).
  destruct (Z.eq_dec x 0) as [->|Hn]; [reflexivity|].
  pose proof (round_nonneg_pos x ltac:(lia)). lia.
Qed.

Lemma parseDuration_finite_nonneg (s : string) (e : Z) :
  parseDuration s = Seconds (Finite e) -> 0 <= e.
Proof.
  unfold parseDuration.
  destruct (duration_match s) as [[ds unit]|] eqn:E; [|discriminate].
  destruct (duration_match_some s ds unit E) as (_ & _ & Hd & _).
  destruct (multipliers unit) as [m|] eqn:Hm; [|discriminate].
  pose proof (multipliers_pos unit m Hm) as Hm1. pose proof (digits_value_nonneg ds Hd) as H0.
  unfold parseInt_digits, number_of_nonneg.
  pose proof (to_number_nonneg (digits_value ds) H0) as H1.
  destruct (to_number (digits_value ds) <? 2 ^ 1024); cbn [mul_number]; [|discriminate].
  unfold number_of_nonneg.
  destruct (to_number (to_number (digits_value ds) * m) <? 2 ^ 1024); [|discriminate].
  intros H. injection H as <-. apply to_number_nonneg. nia.
Qed.

(** X6: a delegation [create-subdelegation.mjs] creates is linked to its
    parent: its [authority] is the parent's delegation hash, its delegator
    is the parent's delegate (the script's account) and its delegate is the
    requested sub-delegate. *)
Theorem createSubDelegation_links_to_parent (keccak256 : list byte -> Z)
    (parent : Delegation) (account subdelegate amount : Z) (expiry : string)
    (now_validate now_build : Z) (d : Delegation) :
  createSubDelegation keccak256 parent account subdelegate amount expiry
                      now_validate now_build = Some d ->
  chain_linked keccak256 [d; parent] /\ delegator d = delegate parent /\
  delegate d = subdelegate.
Proof.
  intros H.
  destruct (createSubDelegation_inv _ _ _ _ _ _ _ _ _ H)
    as (v & r & h & Ha & _ & _ & _ & _ & Hh & Hb).
  apply buildDelegation_inv in Hb as (Hd & Hr & Hau & _). cbn in Hd, Hr, Hau.
  cbn [chain_linked]. unfold hashDelegation in Hh. rewrite Hau, Hh.
  split; [split; [reflexivity | exact I] | split; congruence].
Qed.

Lemma createSubDelegation_links_to_parent_witness :
  exists d,
    createSubDelegation Sample.keccak256
      (Sample.root_delegation [Sample.usdc_limit 1000000000; Sample.before 1760086400])
      Sample.bob Sample.carol 500000000 "12h"%string Sample.now_ms (Sample.now_ms + 1000)
      = Some d /\
    chain_linked Sample.keccak256
      [d; Sample.root_delegation [Sample.usdc_limit 1000000000; Sample.before 1760086400]] /\
    delegator d = delegate
      (Sample.root_delegation [Sample.usdc_limit 1000000000; Sample.before 1760086400]) /\
    delegate d = Sample.carol.
Proof.
  eexists. split; [vm_compute; reflexivity|].
  apply (createSubDelegation_links_to_parent Sample.keccak256
           (Sample.root_delegation [Sample.usdc_limit 1000000000; Sample.before 1760086400])
           Sample.bob Sample.carol 500000000 "12h"%string Sample.now_ms (Sample.now_ms + 1000)).
  vm_compute. reflexivity.
Defined.

(** X7: when the parent has an amount limit [P] laid out by
    [encodeERC20TransferAmountTerms], a sub-delegation the script creates
    with a non-zero amount has [amount <= P], and its first amount-limit
    caveat holds that amount. *)
Theorem createSubDelegation_amount_within_parent (keccak256 : list byte -> Z)
    (parent : Delegation) (account subdelegate amount : Z) (expiry : string)
    (now_validate now_build : Z) (d : Delegation) (ca : Caveat) (tok P : Z) :
  findCaveat DELEGATION_FRAMEWORK.ERC20TransferAmountEnforcer (caveats parent) = Some ca ->
  encodeERC20TransferAmountTerms tok P = Returns (terms ca) ->
  amount <> 0 ->
  createSubDelegation keccak256 parent account subdelegate amount expiry
                      now_validate now_build = Some d ->
  amount <= P /\
  exists c, findCaveat DELEGATION_FRAMEWORK.ERC20TransferAmountEnforcer (caveats d) = Some c /\
            be_value (skipn 20 (terms c)) = amount.
Proof.
  intros Hfa Hta Hn H.
  destruct (createSubDelegation_inv _ _ _ _ _ _ _ _ _ H)
    as (v & r & h & _ & _ & _ & Hv & Hval & _ & Hb).
  destruct (validateSubDelegationScope_valid _ _ _ _ Hv Hval) as [Ha _].
  rewrite (checkAmountScope_spec parent amount (expiry_param v) [] tok P ca Hfa Hta) in Ha.
  apply buildDelegation_inv in Hb as (_ & _ & _ & _ & _ & Hc & Har & _).
  cbn [p_amount p_expirySeconds] in Hc, Har.
  split.
  - destruct (Z.ltb_spec P amount); [discriminate | lia].
  - rewrite Hc. apply findCaveat_built_amount; [exact Hn | exact (Har amount eq_refl Hn)].
Qed.

Lemma createSubDelegation_amount_within_parent_witness :
  exists d,
    createSubDelegation Sample.keccak256
      (Sample.root_delegation [Sample.usdc_limit 1000000000; Sample.before 1760086400])
      Sample.bob Sample.carol 500000000 "12h"%string Sample.now_ms (Sample.now_ms + 1000)
      = Some d /\
    500000000 <= 1000000000 /\
    exists c, findCaveat DELEGATION_FRAMEWORK.ERC20TransferAmountEnforcer (caveats d) = Some c /\
              be_value (skipn 20 (terms c)) = 500000000.
Proof.
  eexists. split; [vm_compute; reflexivity|].
  apply (createSubDelegation_amount_within_parent Sample.keccak256
           (Sample.root_delegation [Sample.usdc_limit 1000000000; Sample.before 1760086400])
           Sample.bob Sample.carol 500000000 "12h"%string Sample.now_ms (Sample.now_ms + 1000)
           _ (Sample.usdc_limit 1000000000) USDC_ADDRESS 1000000000).
  - reflexivity.
  - vm_compute. reflexivity.
  - discriminate.
  - vm_compute. reflexivity.
Defined.

Lemma findCaveat_Timestamp_built (amount : option Z) (l : list Caveat) :
  findCaveat DELEGATION_FRAMEWORK.TimestampEnforcer
    (mkCaveat DELEGATION_FRAMEWORK.ValueLteEnforcer (encodeValueLteTerms 0) []
     :: built_amount_caveats amount ++ l) =
  findCaveat DELEGATION_FRAMEWORK.TimestampEnforcer l.
Proof.
  unfold built_amount_caveats. destruct amount as [a|]; [destruct (truthy (Some a))|];
    reflexivity.
Qed.

Lemma built_expiry_terms (e now_ms : Z) :
  0 <= now_seconds now_ms + e < 2 ^ 53 ->
  let t := be_bytes 16 (to_number (now_seconds now_ms + e)) ++ be_bytes 16 0 in
  slice 0 16 t = be_bytes 16 (now_seconds now_ms + e) /\ slice 16 32 t = be_bytes 16 0 /\
  be_value (slice 0 16 t) = now_seconds now_ms + e /\ be_value (slice 16 32 t) = 0.
Proof.
  intros Hr. cbv zeta. rewrite to_number_small by exact Hr.
  assert (Henc : encodeTimestampTerms (now_seconds now_ms + e) true =
                 Returns (be_bytes 16 (now_seconds now_ms + e) ++ be_bytes 16 0)).
  { unfold encodeTimestampTerms. cbv beta iota zeta.
    rewrite !packed_uint_ok by (change (8 * Z.of_nat 16) with 128; lia). reflexivity. }
  apply encodeTimestamp_inv in Henc as (_ & Hs0 & Hs1 & Hv0 & Hv1). auto.
Qed.

Lemma now_seconds_mono (a b : Z) : 0 <= a <= b -> 0 <= now_seconds a <= now_seconds b.
Proof.
  intros H. unfold now_seconds. split; [apply Z.div_pos | apply Z.div_le_mono]; lia.
Qed.

(** X8: when the parent has a timestamp caveat with threshold [T] (below
    2^53) and the script creates a sub-delegation with a non-zero duration
    [e], the scope check passed with [now_validate / 1000 + e <= T], and the
    child's timestamp caveat is a 'before' caveat at [now_build / 1000 + e]:
    it is computed from the later clock reading of [buildDelegation], not
    from the one the check used. *)
Theorem createSubDelegation_expiry_within_parent (keccak256 : list byte -> Z)
    (parent : Delegation) (account subdelegate amount : Z) (expiry : string)
    (now_validate now_build : Z) (d : Delegation) (ct : Caveat) (T : Z)
    (mode_before : bool) (e : Z) :
  findCaveat DELEGATION_FRAMEWORK.TimestampEnforcer (caveats parent) = Some ct ->
  encodeTimestampTerms T mode_before = Returns (terms ct) ->
  T < 2 ^ 53 ->
  parseDuration expiry = Seconds (Finite e) -> e <> 0 ->
  0 <= now_validate <= now_build ->
  now_seconds now_build + e < 2 ^ 53 ->
  createSubDelegation keccak256 parent account subdelegate amount expiry
                      now_validate now_build = Some d ->
  now_seconds now_validate + e <= T /\
  exists c, findCaveat DELEGATION_FRAMEWORK.TimestampEnforcer (caveats d) = Some c /\
            be_value (slice 0 16 (terms c)) = now_seconds now_build + e /\
            be_value (slice 16 32 (terms c)) = 0.
Proof.
  intros Hft Htt HT Hp He Hnow Hb53 H.
  destruct (createSubDelegation_inv _ _ _ _ _ _ _ _ _ H)
    as (v & r & h & _ & Hp' & _ & Hv & Hval & _ & Hb).
  rewrite Hp in Hp'. injection Hp' as <-. cbn [expiry_param] in Hv, Hb.
  destruct (validateSubDelegationScope_valid _ _ _ _ Hv Hval) as [_ Hx].
  rewrite (checkExpiryScope_spec parent (Some amount) e now_validate [] ct T mode_before
             Hft Htt He) in Hx.
  pose proof (encodeTimestamp_range _ _ _ Htt) as HT0.
  pose proof (parseDuration_finite_nonneg _ _ Hp) as He0.
  pose proof (now_seconds_mono _ _ Hnow) as Hns.
  rewrite (to_number_small T), (to_number_small (now_seconds now_validate + e)) in Hx by lia.
  apply buildDelegation_inv in Hb as (_ & _ & _ & _ & _ & Hc & _ & _).
  cbn [p_amount p_expirySeconds] in Hc.
  split.
  - destruct (Z.ltb_spec T (now_seconds now_validate + e)); [discriminate | lia].
  - rewrite Hc, findCaveat_Timestamp_built. unfold built_expiry_caveats. cbn [truthy].
    replace (e =? 0) with false by (symmetry; apply Z.eqb_neq; exact He). cbn [negb].
    eexists. split; [reflexivity|]. cbn [terms].
    destruct (built_expiry_terms e now_build ltac:(lia)) as (_ & _ & Hv0 & Hv1).
    split; assumption.
Qed.

Lemma createSubDelegation_expiry_within_parent_witness :
  exists d,
    createSubDelegation Sample.keccak256
      (Sample.root_delegation [Sample.usdc_limit 1000000000; Sample.before 1760086400])
      Sample.bob Sample.carol 500000000 "12h"%string Sample.now_ms (Sample.now_ms + 1000)
      = Some d /\
    now_seconds Sample.now_ms + 43200 <= 1760086400 /\
    exists c, findCaveat DELEGATION_FRAMEWORK.TimestampEnforcer (caveats d) = Some c /\
              be_value (slice 0 16 (terms c)) = now_seconds (Sample.now_ms + 1000) + 43200 /\
              be_value (slice 16 32 (terms c)) = 0.
Proof.
  eexists. split; [vm_compute; reflexivity|].
  apply (createSubDelegation_expiry_within_parent Sample.keccak256
           (Sample.root_delegation [Sample.usdc_limit 1000000000; Sample.before 1760086400])
           Sample.bob Sample.carol 500000000 "12h"%string Sample.now_ms (Sample.now_ms + 1000)
           _ (Sample.before 1760086400) 1760086400 true 43200).
  - reflexivity.
  - vm_compute. reflexivity.
  - vm_compute. reflexivity.
  - vm_compute. reflexivity.
  - discriminate.
  - unfold Sample.now_ms. lia.
  - vm_compute. reflexivity.
  - vm_compute. reflexivity.
Defined.

(** ** The scope report on a delegation the builder made *)

(** X9: [check-scope.mjs] reads the first 16 bytes of a timestamp caveat as
    the 'valid after' time.  On the caveat [buildDelegation] adds for an
    expiry (threshold [T], mode 'before'), the report prints [T] as a start
    time ("Not yet active" or "Start time passed") and prints no expiry
    line. *)
Theorem checkScope_reads_built_expiry_as_start (params : BuildParams) (now_ms : Z)
    (d : Delegation) (e : Z) (verbose : bool) (now : Z) (i : nat) (c : Caveat) :
  buildDelegation params now_ms = Returns d ->
  p_expirySeconds params = Some e -> e <> 0 ->
  0 < now_seconds now_ms + e <= 8640000000000 ->
  In c (caveats d) -> enforcer c = DELEGATION_FRAMEWORK.TimestampEnforcer ->
  caveatReport verbose now i c =
  [HeaderLine (S i) TimestampEnforcerName;
   ContractLine DELEGATION_FRAMEWORK.TimestampEnforcer;
   ValidAfterLine (now_seconds now_ms + e);
   if now <=? now_seconds now_ms + e
   then NotYetActiveLine (to_number (now_seconds now_ms + e - now))
   else StartTimePassedLine;
   BlankLine].
Proof.
  intros Hb He Hn HT Hin Hc.
  apply buildDelegation_inv in Hb as (_ & _ & _ & _ & _ & Hcs & _ & _).
  rewrite Hcs in Hin. destruct Hin as [<-|Hin].
  { exfalso. exact (proj2 enforcer_VL_ne Hc). }
  apply in_app_or in Hin as [Hin|Hin].
  { exfalso. unfold built_amount_caveats in Hin.
    destruct (p_amount params) as [a|]; [destruct (truthy (Some a))|]; simpl in Hin;
      try contradiction.
    destruct Hin as [<-|[]]. exact (ERC20_ne_Timestamp Hc). }
  rewrite He in Hin. unfold built_expiry_caveats in Hin. cbn [truthy] in Hin.
  replace (e =? 0) with false in Hin by (symmetry; apply Z.eqb_neq; exact Hn).
  cbn [negb] in Hin. destruct Hin as [<-|[]].
  destruct (built_expiry_terms e now_ms ltac:(lia)) as (Hs0 & Hs1 & Hv0 & Hv1).
  unfold caveatReport. cbn [enforcer terms args].
  replace (enforcerName DELEGATION_FRAMEWORK.TimestampEnforcer)
    with TimestampEnforcerName by reflexivity.
  cbn [decodeReport]. unfold timestampReport.
  rewrite (bigint_of_hex_nonempty (slice 0 16 _))
    by (rewrite Hs0; apply nonempty_of_length; rewrite length_be_bytes; lia).
  rewrite (bigint_of_hex_nonempty (slice 16 32 _))
    by (rewrite Hs1; apply nonempty_of_length; rewrite length_be_bytes; lia).
  rewrite Hv0, Hv1, (to_number_small (now_seconds now_ms + e)) by lia.
  change (to_number 0) with 0.
  replace (0 <? now_seconds now_ms + e) with true by (symmetry; apply Z.ltb_lt; lia).
  replace (iso_date_ok (now_seconds now_ms + e)) with true.
  2:{ symmetry. unfold iso_date_ok. rewrite to_number_small by lia.
      apply Z.leb_le. rewrite Z.abs_eq by lia. lia. }
  replace (now_seconds now_ms + e =? 0) with false by (symmetry; apply Z.eqb_neq; lia).
  cbn [andb then_print out app Z.ltb Z.compare].
  reflexivity.
Qed.

Lemma checkScope_reads_built_expiry_as_start_witness :
  exists d,
    buildDelegation (mkBuildParams Sample.alice Sample.bob None (Some 1000000) (Some 86400))
                    Sample.now_ms = Returns d /\
    forall c, In c (caveats d) -> enforcer c = DELEGATION_FRAMEWORK.TimestampEnforcer ->
    caveatReport false Sample.now_ms 2 c =
    [HeaderLine 3 TimestampEnforcerName;
     ContractLine DELEGATION_FRAMEWORK.TimestampEnforcer;
     ValidAfterLine (now_seconds Sample.now_ms + 86400);
     if Sample.now_ms <=? now_seconds Sample.now_ms + 86400
     then NotYetActiveLine (to_number (now_seconds Sample.now_ms + 86400 - Sample.now_ms))
     else StartTimePassedLine;
     BlankLine].
Proof.
  eexists. split; [vm_compute; reflexivity|].
  lazymatch goal with
  | |- forall c, In c (caveats ?d) -> _ =>
      intros c Hin Hc;
      apply (checkScope_reads_built_expiry_as_start
               (mkBuildParams Sample.alice Sample.bob None (Some 1000000) (Some 86400))
               Sample.now_ms d 86400 false Sample.now_ms 2 c)
  end.
  - vm_compute. reflexivity.
  - reflexivity.
  - discriminate.
  - vm_compute. split; [reflexivity | discriminate].
  - exact Hin.
  - exact Hc.
Defined.

(** ** ABI encodings of the execution helpers *)

Lemma slice_app {A} (pre mid post : list A) (a b : nat) :
  List.length pre = a -> List.length mid = (b - a)%nat ->
  firstn (b - a) (skipn a (pre ++ mid ++ post)) = mid.
Proof.
  intros <- Hm. rewrite skipn_length_app, <- Hm. apply firstn_length_app.
Qed.

Lemma pad_bounds (n : nat) :
  (n <= (n + 31) / 32 * 32 /\ (n + 31) / 32 * 32 - n < 32)%nat.
Proof.
  pose proof (Nat.div_mod_eq (n + 31) 32). pose proof (Nat.mod_upper_bound (n + 31) 32).
  lia.
Qed.

Lemma encodeSingleExecution_eq (target value : Z) (data : list byte) (out : list byte) :
  encodeSingleExecution target value data = Returns out <->
  (0 <= target < 2 ^ 160 /\ 0 <= value < 2 ^ 256) /\
  out = be_bytes 32 target ++ be_bytes 32 value ++ be_bytes 32 96 ++
        be_bytes 32 (Z.of_nat (List.length data)) ++ data ++
        repeat x00 ((List.length data + 31) / 32 * 32 - List.length data).
Proof.
  unfold encodeSingleExecution, abi_address, abi_uint256, abi_bytes_tail.
  split.
  - destruct (abi_slot 20 target) as [w1|] eqn:E1; cbn [bind]; [|discriminate].
    destruct (abi_slot 32 value) as [w2|] eqn:E2; cbn [bind]; [|discriminate].
    intros H. apply Returns_inj in H. subst out.
    apply abi_slot_inv in E1 as [-> H1]. apply abi_slot_inv in E2 as [-> H2].
    split; [split; [exact H1 | exact H2] | reflexivity].
  - intros [[H1 H2] ->]. rewrite (abi_slot_ok 20 target H1), (abi_slot_ok 32 value H2).
    reflexivity.
Qed.

(** X10: the bytes [encodeSingleExecution(target, value, data)] returns read
    back, 32-byte slot by slot, as the target, the value, the offset 96 of
    [data], the length of [data], then [data] itself; after [data] come
    fewer than 32 zero bytes, so that the total length is 128 plus the
    length of [data] rounded up to a multiple of 32. *)
Theorem encodeSingleExecution_layout (target value : Z) (data out : list byte) :
  encodeSingleExecution target value data = Returns out ->
  let n := List.length data in
  List.length out = (128 + (n + 31) / 32 * 32)%nat /\
  be_value (slice 0 32 out) = target /\
  be_value (slice 32 64 out) = value /\
  be_value (slice 64 96 out) = 96 /\
  slice 96 128 out = be_bytes 32 (Z.of_nat n) /\
  slice 128 (128 + n) out = data /\
  skipn (128 + n) out = repeat x00 ((n + 31) / 32 * 32 - n) /\
  ((n + 31) / 32 * 32 - n < 32)%nat.
Proof.
  intros H. apply encodeSingleExecution_eq in H as [[H1 H2] ->]. cbv zeta.
  set (n := List.length data). set (p := ((n + 31) / 32 * 32 - n)%nat).
  pose proof (pad_bounds n) as [Hp1 Hp2]. fold p in Hp2.
  set (bt := be_bytes 32 target). set (bv := be_bytes 32 value).
  set (bo := be_bytes 32 96). set (bn := be_bytes 32 (Z.of_nat n)).
  assert (Lt : List.length bt = 32%nat) by apply length_be_bytes.
  assert (Lv : List.length bv = 32%nat) by apply length_be_bytes.
  assert (Lo : List.length bo = 32%nat) by apply length_be_bytes.
  assert (Ln : List.length bn = 32%nat) by apply length_be_bytes.
  split; [|split; [|split; [|split; [|split; [|split; [|split]]]]]].
  - rewrite !length_app, repeat_length, Lt, Lv, Lo, Ln. fold n p. lia.
  - unfold slice. cbn [skipn].
    replace (32 - 0)%nat with (List.length bt) by (rewrite Lt; reflexivity).
    rewrite firstn_length_app.
    apply be_value_be_bytes_pow. change (8 * Z.of_nat 32) with 256. lia.
  - unfold slice. erewrite (slice_app bt bv _ 32 64) by assumption.
    apply be_value_be_bytes_pow. exact H2.
  - unfold slice. rewrite app_assoc; erewrite (slice_app (bt ++ bv) bo _ 64 96)
      by (rewrite ?length_app, ?Lt, ?Lv, ?Lo, ?Ln; reflexivity).
    reflexivity.
  - unfold slice. rewrite !app_assoc.
    rewrite <- (app_assoc (((bt ++ bv) ++ bo) ++ bn)), <- (app_assoc ((bt ++ bv) ++ bo)).
    erewrite (slice_app ((bt ++ bv) ++ bo) bn _ 96 128)
      by (rewrite ?length_app, ?Lt, ?Lv, ?Lo, ?Ln; reflexivity).
    reflexivity.
  - unfold slice. rewrite !app_assoc.
    rewrite <- (app_assoc (((bt ++ bv) ++ bo) ++ bn)).
    apply slice_app; [rewrite !length_app, Lt, Lv, Lo, Ln; reflexivity | fold n; lia].
  - rewrite !app_assoc.
    replace (128 + n)%nat with (List.length ((((bt ++ bv) ++ bo) ++ bn) ++ data))
      by (rewrite !length_app, Lt, Lv, Lo, Ln; reflexivity).
    apply skipn_length_app.
  - exact Hp2.
Qed.

Lemma encodeSingleExecution_layout_witness :
  let out := be_bytes 32 USDC_ADDRESS ++ be_bytes 32 0 ++ be_bytes 32 96 ++
             be_bytes 32 4 ++ TRANSFER_SELECTOR ++ repeat x00 28 in
  List.length out = (128 + (4 + 31) / 32 * 32)%nat /\
  be_value (slice 0 32 out) = USDC_ADDRESS /\
  be_value (slice 32 64 out) = 0 /\
  be_value (slice 64 96 out) = 96 /\
  slice 96 128 out = be_bytes 32 (Z.of_nat 4) /\
  slice 128 (128 + 4) out = TRANSFER_SELECTOR /\
  skipn (128 + 4) out = repeat x00 ((4 + 31) / 32 * 32 - 4) /\
  ((4 + 31) / 32 * 32 - 4 < 32)%nat.
Proof.
  apply (encodeSingleExecution_layout USDC_ADDRESS 0 TRANSFER_SELECTOR).
  vm_compute. reflexivity.
Defined.

Lemma encodeSingleExecution_ok_iff (target value : Z) (data : list byte) :
  (exists out, encodeSingleExecution target value data = Returns out) <->
  0 <= target < 2 ^ 160 /\ 0 <= value < 2 ^ 256.
Proof.
  split.
  - intros [out H]. apply encodeSingleExecution_eq in H. exact (proj1 H).
  - intros H. eexists. apply encodeSingleExecution_eq. split; [exact H | reflexivity].
Qed.

(** *** Address texts *)

Lemma hex_digit_value_range (c : ascii) :
  is_hex_digit c = true -> 0 <= hex_digit_value c < 16.
Proof.
  unfold is_hex_digit, hex_digit_value. set (n := nat_of_ascii c).
  destruct (Nat.leb_spec 48 n), (Nat.leb_spec n 57), (Nat.leb_spec 65 n),
    (Nat.leb_spec n 70), (Nat.leb_spec 97 n), (Nat.leb_spec n 102);
    cbn [andb orb]; intros Hd; try discriminate;
    destruct (Z.leb_spec (Z.of_nat n) 57), (Z.leb_spec (Z.of_nat n) 70); lia.
Qed.

Lemma hex_value_acc (ds : list ascii) (acc : Z) :
  fold_left (fun acc c => acc * 16 + hex_digit_value c) ds acc =
  acc * 16 ^ Z.of_nat (List.length ds) + hex_value ds.
Proof.
  unfold hex_value. revert acc. induction ds as [|c ds IH]; intros acc; cbn [fold_left List.length].
  - lia.
  - rewrite IH, (IH (0 * 16 + hex_digit_value c)).
    rewrite Nat2Z.inj_succ, Z.pow_succ_r by lia. ring.
Qed.

Lemma hex_value_range (ds : list ascii) :
  forallb is_hex_digit ds = true -> 0 <= hex_value ds < 16 ^ Z.of_nat (List.length ds).
Proof.
  induction ds as [|c ds IH] using rev_ind; intros H; [cbn; lia|].
  rewrite forallb_app in H. apply andb_prop in H as [H1 H2]. cbn in H2.
  rewrite andb_true_r in H2. apply hex_digit_value_range in H2.
  specialize (IH H1).
  unfold hex_value in *. rewrite fold_left_app. cbn [fold_left].
  rewrite length_app, Nat2Z.inj_add, Z.pow_add_r by lia. cbn [List.length].
  change (16 ^ Z.of_nat 1) with 16. lia.
Qed.

Lemma isAddress_digits (keccak256 : list byte -> Z) (address : string) :
  isAddress keccak256 address = true ->
  List.length (address_digits address) = 40%nat /\
  forallb is_hex_digit (address_digits address) = true.
Proof.
  unfold isAddress, address_digits.
  destruct (list_ascii_of_string address) as [|c0 [|c1 ds]]; intros H;
    [discriminate|destruct c0 as [[] [] [] [] [] [] [] []]; discriminate|].
  destruct c0 as [[] [] [] [] [] [] [] []]; try discriminate;
    destruct c1 as [[] [] [] [] [] [] [] []]; try discriminate.
  cbn [skipn]. apply andb_prop in H as [H _]. apply andb_prop in H as [H1 H2].
  apply Nat.eqb_eq in H1. auto.
Qed.

Lemma abi_address_text_inv (keccak256 : list byte -> Z) (address : string) (a : Z) :
  abi_address_text keccak256 address = Returns a ->
  isAddress keccak256 address = true /\ a = hex_value (address_digits address) /\
  0 <= a < 2 ^ 160.
Proof.
  unfold abi_address_text. destruct (isAddress keccak256 address) eqn:E; [|discriminate].
  intros H. apply Returns_inj in H. subst a. split; [reflexivity | split; [reflexivity|]].
  destruct (isAddress_digits _ _ E) as [Hl Hh].
  pose proof (hex_value_range _ Hh) as Hr. rewrite Hl in Hr.
  change (16 ^ Z.of_nat 40) with (2 ^ 160) in Hr. exact Hr.
Qed.

Lemma abi_address_text_ok_iff (keccak256 : list byte -> Z) (address : string) :
  (exists a, abi_address_text keccak256 address = Returns a) <->
  isAddress keccak256 address = true.
Proof.
  split.
  - intros [a H]. exact (proj1 (abi_address_text_inv _ _ _ H)).
  - intros H. unfold abi_address_text. rewrite H. eauto.
Qed.

(** X11: [encodeSingleExecution(target, value, data)] on a target text
    returns exactly when viem's [isAddress] accepts the target (the shape
    0x + 40 hex digits, and lower case or a valid checksum) and the value
    fits a [uint256]; it never rejects the [data] bytes. *)
Theorem encodeSingleExecution_of_text_succeeds_iff (keccak256 : list byte -> Z)
    (target : string) (value : Z) (data : list byte) :
  (exists out, encodeSingleExecution_of_text keccak256 target value data = Returns out) <->
  isAddress keccak256 target = true /\ 0 <= value < 2 ^ 256.
Proof.
  unfold encodeSingleExecution_of_text.
  destruct (abi_address_text keccak256 target) as [t|e] eqn:E; cbn [bind].
  - destruct (abi_address_text_inv _ _ _ E) as (Ha & _ & Ht).
    rewrite encodeSingleExecution_ok_iff. tauto.
  - split; [intros [out H]; discriminate|].
    intros [Ha _]. apply abi_address_text_ok_iff in Ha as [a Ha]. congruence.
Qed.

Lemma USDC_ADDRESS_TEXT_value : hex_value (address_digits USDC_ADDRESS_TEXT) = USDC_ADDRESS.
Proof. vm_compute. reflexivity. Qed.

(** X12: the redemption script's [executionCallData] for [transfer(to,
    amount)] returns exactly when [isAddress] accepts the recipient text
    and the USDC address text and the amount fits a [uint256]; it is then
    224 bytes: the USDC address, value 0, offset 96, length 68, then the
    selector 0xa9059cbb, the value of [to] and [amount] in 32-byte words,
    and 28 zero bytes of padding. *)
Theorem executionCallData_layout_iff (keccak256 : list byte -> Z) (to : string)
    (amountWei : Z) (out : list byte) :
  executionCallData keccak256 to amountWei = Returns out <->
  (isAddress keccak256 to = true /\ isAddress keccak256 USDC_ADDRESS_TEXT = true /\
   0 <= amountWei < 2 ^ 256) /\
  out = be_bytes 32 USDC_ADDRESS ++ be_bytes 32 0 ++ be_bytes 32 96 ++ be_bytes 32 68 ++
        TRANSFER_SELECTOR ++ be_bytes 32 (hex_value (address_digits to)) ++
        be_bytes 32 amountWei ++ repeat x00 28.
Proof.
  unfold executionCallData, encodeTransferCalldata_of_text, encodeSingleExecution_of_text,
    encodeTransferCalldata, abi_address, abi_uint256.
  split.
  - destruct (abi_address_text keccak256 to) as [t|] eqn:Et; cbn [bind]; [|discriminate].
    destruct (abi_address_text_inv _ _ _ Et) as (Ha & -> & Ht).
    rewrite (abi_slot_ok 20 _ Ht). cbn [bind].
    destruct (abi_slot 32 amountWei) as [w2|] eqn:E2; cbn [bind]; [|discriminate].
    apply abi_slot_inv in E2 as [-> H2].
    destruct (abi_address_text keccak256 USDC_ADDRESS_TEXT) as [u|] eqn:Eu; cbn [bind];
      [|discriminate].
    destruct (abi_address_text_inv _ _ _ Eu) as (Hu & -> & _).
    intros H. apply encodeSingleExecution_eq in H as [_ ->].
    rewrite USDC_ADDRESS_TEXT_value.
    split; [split; [exact Ha | split; [exact Hu | exact H2]]|].
    rewrite !length_app, !length_be_bytes. reflexivity.
  - intros [(Ha & Hu & H2) ->].
    destruct (abi_address_text keccak256 to) as [t|] eqn:Et; cbn [bind];
      [|apply (proj2 (abi_address_text_ok_iff _ _)) in Ha as [a Ha]; congruence].
    destruct (abi_address_text_inv _ _ _ Et) as (_ & -> & Ht).
    rewrite (abi_slot_ok 20 _ Ht), (abi_slot_ok 32 amountWei H2). cbn [bind].
    destruct (abi_address_text keccak256 USDC_ADDRESS_TEXT) as [u|] eqn:Eu; cbn [bind];
      [|apply (proj2 (abi_address_text_ok_iff _ _)) in Hu as [a Hu]; congruence].
    destruct (abi_address_text_inv _ _ _ Eu) as (_ & -> & _).
    rewrite USDC_ADDRESS_TEXT_value.
    apply encodeSingleExecution_eq. split.
    + split; [vm_compute; split; congruence | vm_compute; split; congruence].
    + rewrite !length_app, !length_be_bytes. reflexivity.
Qed.

Lemma abi_addresses_eq (xs : list Z) (w : list byte) :
  abi_addresses xs = Returns w <->
  Forall (fun x => 0 <= x < 2 ^ 160) xs /\ w = List.concat (map (be_bytes 32) xs).
Proof.
  revert w. induction xs as [|x xs IH]; intros w; cbn [abi_addresses].
  - split.
    + intros H. apply Returns_inj in H. subst w. split; [constructor | reflexivity].
    + intros [_ ->]. reflexivity.
  - unfold abi_address. split.
    + destruct (abi_slot 20 x) as [w1|] eqn:E1; cbn [bind]; [|discriminate].
      destruct (abi_addresses xs) as [ws|] eqn:E2; cbn [bind]; [|discriminate].
      intros H. apply Returns_inj in H. subst w.
      apply abi_slot_inv in E1 as [-> H1].
      destruct (proj1 (IH ws) eq_refl) as [Hf ->].
      split; [constructor; [exact H1 | exact Hf] | reflexivity].
    + intros [Hf ->]. inversion Hf as [|? ? H1 Hf']; subst.
      rewrite (abi_slot_ok 20 x H1). cbn [bind].
      rewrite (proj2 (IH _) (conj Hf' eq_refl)). reflexivity.
Qed.

Lemma concat_slot (xs : list Z) (k : nat) :
  (k < List.length xs)%nat ->
  firstn 32 (skipn (32 * k) (List.concat (map (be_bytes 32) xs))) = be_bytes 32 (nth k xs 0).
Proof.
  revert k. induction xs as [|x xs IH]; intros k Hk; cbn [List.length] in Hk; [lia|].
  cbn [map List.concat].
  destruct k as [|k].
  - cbn [nth]. replace (32 * 0)%nat with 0%nat by lia. cbn [skipn].
    pose proof (firstn_length_app (be_bytes 32 x) (List.concat (map (be_bytes 32) xs))) as H.
    rewrite length_be_bytes in H. exact H.
  - cbn [nth]. replace (32 * S k)%nat with (32 * k + List.length (be_bytes 32 x))%nat
      by (rewrite length_be_bytes; lia).
    rewrite <- skipn_skipn, skipn_length_app. apply IH. lia.
Qed.

(** X13: the bytes [encodeRedeemerTerms(allowedRedeemers)] returns are 64
    plus 32 per address: the offset 32, the number of addresses, then
    each address in its own 32-byte word, in order (an empty list gives
    the 64 bytes of the head alone). *)
Theorem encodeRedeemerTerms_layout (xs : list Z) (out : list byte) :
  encodeRedeemerTerms xs = Returns out ->
  List.length out = (64 + 32 * List.length xs)%nat /\
  be_value (slice 0 32 out) = 32 /\
  slice 32 64 out = be_bytes 32 (Z.of_nat (List.length xs)) /\
  forall k, (k < List.length xs)%nat ->
            be_value (slice (64 + 32 * k) (64 + 32 * k + 32) out) = nth k xs 0.
Proof.
  unfold encodeRedeemerTerms.
  destruct (abi_addresses xs) as [w|] eqn:E; cbn [bind]; intros H; [|discriminate].
  apply Returns_inj in H. subst out. apply abi_addresses_eq in E as [Hf ->].
  assert (Hl : List.length (List.concat (map (be_bytes 32) xs)) = (32 * List.length xs)%nat).
  { clear Hf. induction xs as [|x xs IH]; [reflexivity|].
    cbn [map List.concat List.length]. rewrite length_app, length_be_bytes, IH. lia. }
  split; [|split; [|split]].
  - rewrite !length_app, !length_be_bytes, Hl. lia.
  - unfold slice. cbn [skipn].
    pose proof (firstn_length_app (be_bytes 32 32)
                  (be_bytes 32 (Z.of_nat (List.length xs)) ++
                   List.concat (map (be_bytes 32) xs))) as H.
    rewrite length_be_bytes in H. change (32 - 0)%nat with 32%nat. rewrite H.
    reflexivity.
  - unfold slice. apply slice_app; rewrite length_be_bytes; reflexivity.
  - intros k Hk. unfold slice.
    replace (64 + 32 * k + 32 - (64 + 32 * k))%nat with 32%nat by lia.
    rewrite app_assoc.
    replace (64 + 32 * k)%nat
      with (32 * k + List.length (be_bytes 32 32 ++ be_bytes 32 (Z.of_nat (List.length xs))))%nat
      by (rewrite length_app, !length_be_bytes; lia).
    rewrite <- skipn_skipn, skipn_length_app, concat_slot by exact Hk.
    apply be_value_be_bytes_pow. change (8 * Z.of_nat 20) with 160 in *.
    change (8 * Z.of_nat 32) with 256.
    rewrite Forall_forall in Hf. pose proof (Hf _ (nth_In xs 0 Hk)). lia.
Qed.

Lemma encodeRedeemerTerms_layout_witness :
  let out := be_bytes 32 32 ++ be_bytes 32 2 ++ be_bytes 32 Sample.alice ++
             be_bytes 32 Sample.bob in
  List.length out = (64 + 32 * 2)%nat /\
  be_value (slice 0 32 out) = 32 /\
  slice 32 64 out = be_bytes 32 (Z.of_nat 2) /\
  forall k, (k < 2)%nat ->
            be_value (slice (64 + 32 * k) (64 + 32 * k + 32) out) = nth k [Sample.alice; Sample.bob] 0.
Proof.
  apply (encodeRedeemerTerms_layout [Sample.alice; Sample.bob]).
  vm_compute. reflexivity.
Defined.

Lemma encodeRedeemerTerms_ok_iff (xs : list Z) :
  (exists out, encodeRedeemerTerms xs = Returns out) <->
  Forall (fun x => 0 <= x < 2 ^ 160) xs.
Proof.
  unfold encodeRedeemerTerms. split.
  - intros [out H]. destruct (abi_addresses xs) as [w|] eqn:E; [|discriminate].
    exact (proj1 (proj1 (abi_addresses_eq xs w) E)).
  - intros Hf. rewrite (proj2 (abi_addresses_eq xs _) (conj Hf eq_refl)).
    eexists. reflexivity.
Qed.

Lemma addresses_of_text_inv (keccak256 : list byte -> Z) (xs : list string) (ys : list Z) :
  addresses_of_text keccak256 xs = Returns ys ->
  Forall (fun x => isAddress keccak256 x = true) xs /\
  ys = map (fun x => hex_value (address_digits x)) xs /\
  Forall (fun y => 0 <= y < 2 ^ 160) ys.
Proof.
  revert ys. induction xs as [|x xs IH]; intros ys; cbn [addresses_of_text].
  - intros H. apply Returns_inj in H. subst ys. repeat constructor.
  - destruct (abi_address_text keccak256 x) as [a|] eqn:Ea; cbn [bind]; [|discriminate].
    destruct (addresses_of_text keccak256 xs) as [as'|] eqn:Es; cbn [bind]; [|discriminate].
    intros H. apply Returns_inj in H. subst ys.
    destruct (abi_address_text_inv _ _ _ Ea) as (Hx & -> & Hr).
    destruct (IH as' eq_refl) as (Hf & -> & Hf').
    split; [constructor; auto | split; [reflexivity | constructor; auto]].
Qed.

Lemma addresses_of_text_ok (keccak256 : list byte -> Z) (xs : list string) :
  Forall (fun x => isAddress keccak256 x = true) xs ->
  exists ys, addresses_of_text keccak256 xs = Returns ys.
Proof.
  induction 1 as [|x xs Hx Hxs IH]; cbn [addresses_of_text]; [eauto|].
  apply abi_address_text_ok_iff in Hx as [a ->]. destruct IH as [ys ->]. cbn [bind]. eauto.
Qed.

(** X14: [encodeRedeemerTerms(allowedRedeemers)] on address texts returns
    exactly when [isAddress] accepts every one of them. *)
Theorem encodeRedeemerTerms_of_text_succeeds_iff (keccak256 : list byte -> Z)
    (xs : list string) :
  (exists out, encodeRedeemerTerms_of_text keccak256 xs = Returns out) <->
  Forall (fun x => isAddress keccak256 x = true) xs.
Proof.
  unfold encodeRedeemerTerms_of_text. split.
  - intros [out H]. destruct (addresses_of_text keccak256 xs) as [ys|] eqn:E; [|discriminate].
    exact (proj1 (addresses_of_text_inv _ _ _ E)).
  - intros Hf. destruct (addresses_of_text_ok _ _ Hf) as [ys E]. rewrite E. cbn [bind].
    apply encodeRedeemerTerms_ok_iff. exact (proj2 (proj2 (addresses_of_text_inv _ _ _ E))).
Qed.

Lemma isAddress_lowercase (keccak256 : list byte -> Z) (ds : list ascii) :
  List.length ds = 40%nat -> forallb is_hex_digit ds = true -> map to_lower ds = ds ->
  isAddress keccak256 (string_of_list_ascii ("0"%char :: "x"%char :: ds)) = true.
Proof.
  intros Hl Hh Hlow. unfold isAddress. rewrite list_ascii_of_string_of_list_ascii.
  rewrite Hl, Hh, Hlow. unfold ascii_list_eqb. rewrite String.eqb_refl. reflexivity.
Qed.

(** X18: a list of redeemer texts each "0x" and 40 hex digits in lower
    case is encoded whatever [keccak256] gives, as the list of their
    hexadecimal values: the checksum is checked only on mixed-case texts. *)
Theorem encodeRedeemerTerms_lowercase (keccak256 : list byte -> Z) (xs : list string) :
  Forall (fun x => exists ds, x = string_of_list_ascii ("0"%char :: "x"%char :: ds) /\
                              List.length ds = 40%nat /\ forallb is_hex_digit ds = true /\
                              map to_lower ds = ds) xs ->
  encodeRedeemerTerms_of_text keccak256 xs =
  encodeRedeemerTerms (map (fun x => hex_value (address_digits x)) xs).
Proof.
  intros Hf. unfold encodeRedeemerTerms_of_text.
  assert (Ha : Forall (fun x => isAddress keccak256 x = true) xs).
  { eapply Forall_impl; [|exact Hf]. intros x (ds & -> & Hl & Hh & Hlow).
    apply isAddress_lowercase; assumption. }
  destruct (addresses_of_text_ok _ _ Ha) as [ys E]. rewrite E. cbn [bind].
  destruct (addresses_of_text_inv _ _ _ E) as (_ & -> & _). reflexivity.
Qed.

Lemma encodeRedeemerTerms_lowercase_witness :
  encodeRedeemerTerms_of_text Sample.keccak256
    ["0x1111111111111111111111111111111111111111"%string;
     "0xabcdefabcdefabcdefabcdefabcdefabcdefabcd"%string] =
  encodeRedeemerTerms (map (fun x => hex_value (address_digits x))
    ["0x1111111111111111111111111111111111111111"%string;
     "0xabcdefabcdefabcdefabcdefabcdefabcdefabcd"%string]).
Proof.
  apply encodeRedeemerTerms_lowercase.
  repeat constructor.
  - exists (list_ascii_of_string "1111111111111111111111111111111111111111"%string).
    vm_compute. repeat split; reflexivity.
  - exists (list_ascii_of_string "abcdefabcdefabcdefabcdefabcdefabcdefabcd"%string).
    vm_compute. repeat split; reflexivity.
Defined.

(** ** Delegations without limits *)

(** X15: when the parent delegation has no amount-limit caveat and no
    timestamp caveat, [validateSubDelegationScope] accepts every
    sub-delegation: whatever amount and duration are requested, it returns
    [valid: true] with no errors. *)
Theorem validateSubDelegationScope_unlimited_parent (parent : Delegation)
    (params : SubDelegationParams) (now_ms : Z) :
  findCaveat DELEGATION_FRAMEWORK.ERC20TransferAmountEnforcer (caveats parent) = None ->
  findCaveat DELEGATION_FRAMEWORK.TimestampEnforcer (caveats parent) = None ->
  validateSubDelegationScope parent params now_ms = Returns (mkResult true []).
Proof.
  intros Ha Ht. unfold validateSubDelegationScope, checkAmountScope, checkExpiryScope.
  cbv zeta. rewrite Ha, Ht. reflexivity.
Qed.

Lemma validateSubDelegationScope_unlimited_parent_witness :
  validateSubDelegationScope
    (Sample.root_delegation
       [mkCaveat DELEGATION_FRAMEWORK.ValueLteEnforcer (encodeValueLteTerms 0) []])
    (mkSubParams (Some (10 ^ 30)) (Some (10 ^ 12))) Sample.now_ms
  = Returns (mkResult true []).
Proof.
  apply validateSubDelegationScope_unlimited_parent; reflexivity.
Defined.

Lemma checkCaveats_others (x now : Z) (errs : list TransferError) (cs : list Caveat) :
  Forall (fun c => enforcer c <> DELEGATION_FRAMEWORK.ERC20TransferAmountEnforcer /\
                   enforcer c <> DELEGATION_FRAMEWORK.TimestampEnforcer) cs ->
  checkCaveats x now errs cs = Returns errs.
Proof.
  induction 1 as [|c cs [H1 H2] _ IH]; [reflexivity|].
  cbn [checkCaveats]. rewrite checkCaveat_other by assumption. exact IH.
Qed.

(** X16: a delegation none of whose caveats is an amount-limit or a
    timestamp caveat passes [validateTransfer] for every recipient, every
    amount and every time: the result is [valid: true] with no errors. *)
Theorem validateTransfer_no_limits (d : Delegation) (to x now_ms : Z) :
  Forall (fun c => enforcer c <> DELEGATION_FRAMEWORK.ERC20TransferAmountEnforcer /\
                   enforcer c <> DELEGATION_FRAMEWORK.TimestampEnforcer) (caveats d) ->
  validateTransfer d to x now_ms = Returns (mkResult true []).
Proof.
  intros H. unfold validateTransfer. cbv zeta. rewrite checkCaveats_others by exact H.
  reflexivity.
Qed.

Lemma validateTransfer_no_limits_witness :
  validateTransfer
    (Sample.root_delegation
       [mkCaveat DELEGATION_FRAMEWORK.ValueLteEnforcer (encodeValueLteTerms 0) []])
    Sample.carol (10 ^ 30) (Sample.now_ms * 1000)
  = Returns (mkResult true []).
Proof.
  apply validateTransfer_no_limits. repeat constructor; cbn [enforcer]; apply enforcer_VL_ne.
Defined.

(** ** What a computed delegation hash implies *)

Lemma hashCaveat_returns_range (keccak256 : list byte -> Z) (c : Caveat) (h : Z) :
  hashCaveat keccak256 c = Returns h -> 0 <= enforcer c < 2 ^ 160.
Proof.
  unfold hashCaveat, abi_address.
  destruct (abi_bytes32 (CAVEAT_TYPEHASH keccak256)); cbn [bind]; [|discriminate].
  destruct (abi_slot 20 (enforcer c)) as [w|] eqn:E; cbn [bind]; [|discriminate].
  intros _. exact (proj2 (abi_slot_inv _ _ _ E)).
Qed.

Lemma map_hashCaveat_returns_range (keccak256 : list byte -> Z) (cs : list Caveat)
    (hs : list Z) :
  map_hashCaveat keccak256 cs = Returns hs -> Forall (fun c => 0 <= enforcer c < 2 ^ 160) cs.
Proof.
  revert hs. induction cs as [|c cs IH]; intros hs; cbn [map_hashCaveat]; [constructor|].
  destruct (hashCaveat keccak256 c) as [h|] eqn:E1; cbn [bind]; [|discriminate].
  destruct (map_hashCaveat keccak256 cs) as [hs'|] eqn:E2; cbn [bind]; [|discriminate].
  intros _. constructor; [exact (hashCaveat_returns_range _ _ _ E1) | exact (IH _ eq_refl)].
Qed.

(** X17: whenever [getDelegationHash] returns a hash, every caveat's
    enforcer and the delegate and delegator fit in 20 bytes and the
    authority and the salt in 32 bytes: a value outside these ranges makes
    viem's encoder throw. *)
Theorem getDelegationHash_returns_in_range (keccak256 : list byte -> Z) (d : Delegation)
    (h : Z) :
  getDelegationHash keccak256 d = Returns h ->
  Forall (fun c => 0 <= enforcer c < 2 ^ 160) (caveats d) /\
  0 <= delegate d < 2 ^ 160 /\ 0 <= delegator d < 2 ^ 160 /\
  0 <= authority d < 2 ^ 256 /\ 0 <= salt d < 2 ^ 256.
Proof.
  unfold getDelegationHash, hashCaveatsArray, abi_address, abi_bytes32, abi_uint256.
  destruct (map_hashCaveat keccak256 (caveats d)) as [hs|] eqn:E; cbn [bind]; [|discriminate].
  destruct (abi_slot 32 (DELEGATION_TYPEHASH keccak256)); cbn [bind]; [|discriminate].
  destruct (abi_slot 20 (delegate d)) as [w2|] eqn:E2; cbn [bind]; [|discriminate].
  destruct (abi_slot 20 (delegator d)) as [w3|] eqn:E3; cbn [bind]; [|discriminate].
  destruct (abi_slot 32 (authority d)) as [w4|] eqn:E4; cbn [bind]; [|discriminate].
  destruct (abi_slot 32 (keccak256 _)); cbn [bind]; [|discriminate].
  destruct (abi_slot 32 (salt d)) as [w6|] eqn:E6; cbn [bind]; [|discriminate].
  intros _. apply abi_slot_inv in E2, E3, E4, E6.
  change (8 * Z.of_nat 20) with 160 in *. change (8 * Z.of_nat 32) with 256 in *.
  split; [exact (map_hashCaveat_returns_range _ _ _ E) | tauto].
Qed.

Lemma getDelegationHash_returns_in_range_witness :
  exists h,
    getDelegationHash Sample.keccak256 (Sample.root_delegation [Sample.usdc_limit 1000000000])
      = Returns h /\
    Forall (fun c => 0 <= enforcer c < 2 ^ 160)
           (caveats (Sample.root_delegation [Sample.usdc_limit 1000000000])) /\
    0 <= delegate (Sample.root_delegation [Sample.usdc_limit 1000000000]) < 2 ^ 160 /\
    0 <= delegator (Sample.root_delegation [Sample.usdc_limit 1000000000]) < 2 ^ 160 /\
    0 <= authority (Sample.root_delegation [Sample.usdc_limit 1000000000]) < 2 ^ 256 /\
    0 <= salt (Sample.root_delegation [Sample.usdc_limit 1000000000]) < 2 ^ 256.
Proof.
  destruct (getDelegationHash Sample.keccak256
              (Sample.root_delegation [Sample.usdc_limit 1000000000])) as [h|e] eqn:E.
  - exists h. split; [reflexivity|].
    exact (getDelegationHash_returns_in_range Sample.keccak256 _ h E).
  - vm_compute in E. discriminate.
Defined.

(** ** What the scope report prints for caveats laid out by the encoders *)

Lemma encodeERC20_eq (tok amount : Z) (t : list byte) :
  encodeERC20TransferAmountTerms tok amount = Returns t ->
  t = be_bytes 20 tok ++ be_bytes 32 amount.
Proof.
  unfold encodeERC20TransferAmountTerms.
  destruct (packed_uint 32 amount) as [a|] eqn:E; cbn [bind]; intros H; [|discriminate].
  apply Returns_inj in H. apply packed_uint_inv in E as [-> _]. auto.
Qed.

Lemma args_lines_nil (c : Caveat) :
  (match args c with [] => [] | a => [ArgsLine a] end) =
  (if (List.length (args c) =? 0)%nat then [] else [ArgsLine (args c)]).
Proof. destruct (args c); reflexivity. Qed.

(** X19: [check-scope.mjs] reads an amount-limit caveat laid out by
    [encodeERC20TransferAmountTerms(token, amount)] back: it prints the
    amount and the token it was built with, then "transfer only" and
    "Active", and no decoding error. *)
Theorem checkScope_amount_report (verbose : bool) (now : Z) (i : nat) (c : Caveat)
    (tok amount : Z) :
  enforcer c = DELEGATION_FRAMEWORK.ERC20TransferAmountEnforcer ->
  encodeERC20TransferAmountTerms tok amount = Returns (terms c) ->
  caveatReport verbose now i c =
  [HeaderLine (S i) ERC20TransferAmountEnforcerName;
   ContractLine DELEGATION_FRAMEWORK.ERC20TransferAmountEnforcer;
   MaxAmountLine amount; TokenLine (be_bytes 20 tok); TransferMethodOnlyLine;
   StatusActiveLine] ++
  (match args c with [] => [] | a => [ArgsLine a] end) ++ [BlankLine].
Proof.
  intros He Ht.
  pose proof (encodeERC20_range _ _ _ Ht) as Hr.
  apply encodeERC20_inv in Ht as Hinv. destruct Hinv as (Hlen & Hs & Hv).
  apply encodeERC20_eq in Ht.
  unfold caveatReport. rewrite He.
  replace (enforcerName DELEGATION_FRAMEWORK.ERC20TransferAmountEnforcer)
    with ERC20TransferAmountEnforcerName by reflexivity.
  cbn [decodeReport].
  rewrite bigint_of_hex_nonempty
    by (apply nonempty_of_length; rewrite length_skipn, Hlen; lia).
  rewrite Hv.
  replace (slice 0 20 (terms c)) with (be_bytes 20 tok).
  2:{ unfold slice. rewrite Ht. cbn [skipn].
      pose proof (firstn_length_app (be_bytes 20 tok) (be_bytes 32 amount)) as H.
      rewrite length_be_bytes in H. exact H. }
  reflexivity.
Qed.

Lemma checkScope_amount_report_witness :
  caveatReport true Sample.now_ms 1 (Sample.usdc_limit 1000000000) =
  [HeaderLine 2 ERC20TransferAmountEnforcerName;
   ContractLine DELEGATION_FRAMEWORK.ERC20TransferAmountEnforcer;
   MaxAmountLine 1000000000; TokenLine (be_bytes 20 USDC_ADDRESS); TransferMethodOnlyLine;
   StatusActiveLine] ++
  (match args (Sample.usdc_limit 1000000000) with [] => [] | a => [ArgsLine a] end) ++
  [BlankLine].
Proof.
  apply (checkScope_amount_report true Sample.now_ms 1 (Sample.usdc_limit 1000000000)
           USDC_ADDRESS 1000000000).
  - reflexivity.
  - vm_compute. reflexivity.
Defined.

(** X20: [check-scope.mjs] reads a ValueLte caveat laid out by
    [encodeValueLteTerms(maxValue)] back: for 0 it prints that ETH
    transfers are prevented, otherwise it prints the maximum value. *)
Theorem checkScope_value_report (verbose : bool) (now : Z) (i : nat) (c : Caveat)
    (maxValue : Z) :
  enforcer c = DELEGATION_FRAMEWORK.ValueLteEnforcer ->
  terms c = encodeValueLteTerms maxValue -> 0 <= maxValue < 2 ^ 256 ->
  caveatReport verbose now i c =
  [HeaderLine (S i) ValueLteEnforcerName;
   ContractLine DELEGATION_FRAMEWORK.ValueLteEnforcer] ++
  (if maxValue =? 0 then [MaxEthZeroLine; NoEthPurposeLine; StatusActiveLine]
   else [MaxEthLine maxValue; StatusActiveLine]) ++
  (match args c with [] => [] | a => [ArgsLine a] end) ++ [BlankLine].
Proof.
  intros He Ht Hr.
  unfold caveatReport. rewrite He.
  replace (enforcerName DELEGATION_FRAMEWORK.ValueLteEnforcer)
    with ValueLteEnforcerName by reflexivity.
  cbn [decodeReport]. rewrite Ht. unfold encodeValueLteTerms.
  rewrite bigint_of_hex_nonempty
    by (apply nonempty_of_length; rewrite length_be_bytes; lia).
  rewrite be_value_be_bytes_pow by exact Hr.
  destruct (maxValue =? 0); reflexivity.
Qed.

Lemma checkScope_value_report_witness :
  caveatReport false Sample.now_ms 0
    (mkCaveat DELEGATION_FRAMEWORK.ValueLteEnforcer (encodeValueLteTerms 0) []) =
  [HeaderLine 1 ValueLteEnforcerName;
   ContractLine DELEGATION_FRAMEWORK.ValueLteEnforcer] ++
  (if 0 =? 0 then [MaxEthZeroLine; NoEthPurposeLine; StatusActiveLine]
   else [MaxEthLine 0; StatusActiveLine]) ++
  (match args (mkCaveat DELEGATION_FRAMEWORK.ValueLteEnforcer (encodeValueLteTerms 0) [])
   with [] => [] | a => [ArgsLine a] end) ++ [BlankLine].
Proof.
  apply checkScope_value_report; [reflexivity | reflexivity | vm_compute; split; congruence].
Defined.

(** X21: [check-scope.mjs] reads the terms [encodeTimestampTerms(T, mode)]
    lays out (threshold, then mode word) as (afterThreshold,
    beforeThreshold).  It prints [T] as a start time; in mode 'before'
    (mode word 0) it prints no expiry, and in mode 'after' (mode word 1) it
    prints an expiry at second 1 of 1970. *)
Theorem checkScope_timestamp_report (verbose : bool) (now : Z) (i : nat) (c : Caveat)
    (T : Z) (mode_before : bool) :
  enforcer c = DELEGATION_FRAMEWORK.TimestampEnforcer ->
  encodeTimestampTerms T mode_before = Returns (terms c) ->
  0 < T <= 8640000000000 ->
  caveatReport verbose now i c =
  [HeaderLine (S i) TimestampEnforcerName;
   ContractLine DELEGATION_FRAMEWORK.TimestampEnforcer;
   ValidAfterLine T;
   if now <=? T then NotYetActiveLine (to_number (T - now)) else StartTimePassedLine] ++
  (if mode_before then []
   else [ExpiresLine 1;
         if 0 <? to_number (1 - now) then ValidRemainingLine (to_number (1 - now))
         else ExpiredAgoLine (to_number (1 - now))]) ++
  (match args c with [] => [] | a => [ArgsLine a] end) ++ [BlankLine].
Proof.
  intros He Ht HT.
  apply encodeTimestamp_inv in Ht as (_ & Hs0 & Hs1 & Hv0 & Hv1).
  unfold caveatReport. rewrite He.
  replace (enforcerName DELEGATION_FRAMEWORK.TimestampEnforcer)
    with TimestampEnforcerName by reflexivity.
  cbn [decodeReport]. unfold timestampReport.
  rewrite (bigint_of_hex_nonempty (slice 0 16 _))
    by (rewrite Hs0; apply nonempty_of_length; rewrite length_be_bytes; lia).
  rewrite (bigint_of_hex_nonempty (slice 16 32 _))
    by (rewrite Hs1; apply nonempty_of_length; rewrite length_be_bytes; lia).
  rewrite Hv0, Hv1, (to_number_small T) by lia.
  replace (0 <? T) with true by (symmetry; apply Z.ltb_lt; lia).
  replace (iso_date_ok T) with true.
  2:{ symmetry. unfold iso_date_ok. rewrite to_number_small by lia.
      apply Z.leb_le. rewrite Z.abs_eq by lia. lia. }
  replace (T =? 0) with false by (symmetry; apply Z.eqb_neq; lia).
  destruct mode_before; reflexivity.
Qed.

Lemma checkScope_timestamp_report_witness :
  caveatReport false Sample.now_ms 0 (Sample.before 1760086400) =
  [HeaderLine 1 TimestampEnforcerName;
   ContractLine DELEGATION_FRAMEWORK.TimestampEnforcer;
   ValidAfterLine 1760086400;
   if Sample.now_ms <=? 1760086400
   then NotYetActiveLine (to_number (1760086400 - Sample.now_ms))
   else StartTimePassedLine] ++
  (if true then []
   else [ExpiresLine 1;
         if 0 <? to_number (1 - Sample.now_ms)
         then ValidRemainingLine (to_number (1 - Sample.now_ms))
         else ExpiredAgoLine (to_number (1 - Sample.now_ms))]) ++
  (match args (Sample.before 1760086400) with [] => [] | a => [ArgsLine a] end) ++
  [BlankLine].
Proof.
  apply (checkScope_timestamp_report false Sample.now_ms 0 (Sample.before 1760086400)
           1760086400 true).
  - reflexivity.
  - vm_compute. reflexivity.
  - split; [reflexivity | discriminate].
Defined.

(** X22: an amount-limit caveat whose terms are 20 bytes or shorter makes
    the amount decoding throw ([BigInt('0x')]); [check-scope.mjs] catches
    the error, prints "Could not decode terms" (with the raw terms and the
    error when verbose) and goes on with the next caveat. *)
Theorem checkScope_short_amount_terms (verbose : bool) (now : Z) (i : nat) (c : Caveat) :
  enforcer c = DELEGATION_FRAMEWORK.ERC20TransferAmountEnforcer ->
  (List.length (terms c) <= 20)%nat ->
  caveatReport verbose now i c =
  [HeaderLine (S i) ERC20TransferAmountEnforcerName;
   ContractLine DELEGATION_FRAMEWORK.ERC20TransferAmountEnforcer; CouldNotDecodeLine] ++
  (if verbose then [RawTermsLine (terms c); ErrorMessageLine (DecodeError SyntaxError)]
   else []) ++
  (match args c with [] => [] | a => [ArgsLine a] end) ++ [BlankLine].
Proof.
  intros He Hl.
  unfold caveatReport. rewrite He.
  replace (enforcerName DELEGATION_FRAMEWORK.ERC20TransferAmountEnforcer)
    with ERC20TransferAmountEnforcerName by reflexivity.
  cbn [decodeReport]. rewrite skipn_all2 by exact Hl. reflexivity.
Qed.

Lemma checkScope_short_amount_terms_witness :
  caveatReport true Sample.now_ms 0
    (mkCaveat DELEGATION_FRAMEWORK.ERC20TransferAmountEnforcer (be_bytes 20 USDC_ADDRESS) []) =
  [HeaderLine 1 ERC20TransferAmountEnforcerName;
   ContractLine DELEGATION_FRAMEWORK.ERC20TransferAmountEnforcer; CouldNotDecodeLine] ++
  (if true
   then [RawTermsLine (be_bytes 20 USDC_ADDRESS); ErrorMessageLine (DecodeError SyntaxError)]
   else []) ++
  (match args (mkCaveat DELEGATION_FRAMEWORK.ERC20TransferAmountEnforcer
                 (be_bytes 20 USDC_ADDRESS) []) with [] => [] | a => [ArgsLine a] end) ++
  [BlankLine].
Proof.
  apply checkScope_short_amount_terms; [reflexivity | cbn [terms]; rewrite length_be_bytes; lia].
Defined.

(** ** The display of [formatDelegation] *)

Lemma formatCaveat_amount (tok a : Z) (ar : list byte) :
  0 <= a < 2 ^ 256 ->
  formatCaveat (mkCaveat DELEGATION_FRAMEWORK.ERC20TransferAmountEnforcer
                         (be_bytes 20 tok ++ be_bytes 32 a) ar) =
  [EnforcerFmt ERC20TransferAmountEnforcerName; TokenFmt (be_bytes 20 tok); AmountFmt a].
Proof.
  intros Hr. unfold formatCaveat. cbn [enforcer terms].
  replace (enforcerName DELEGATION_FRAMEWORK.ERC20TransferAmountEnforcer)
    with ERC20TransferAmountEnforcerName by reflexivity.
  cbn [formatDecode].
  pose proof (skipn_length_app (be_bytes 20 tok) (be_bytes 32 a)) as Hs.
  rewrite length_be_bytes in Hs. rewrite Hs.
  rewrite bigint_of_hex_nonempty
    by (apply nonempty_of_length; rewrite length_be_bytes; lia).
  rewrite be_value_be_bytes_pow by exact Hr.
  replace (slice 0 20 (be_bytes 20 tok ++ be_bytes 32 a)) with (be_bytes 20 tok).
  - reflexivity.
  - unfold slice. cbn [skipn].
    pose proof (firstn_length_app (be_bytes 20 tok) (be_bytes 32 a)) as H.
    rewrite length_be_bytes in H. symmetry. exact H.
Qed.

Lemma formatCaveat_timestamp_eq (c : Caveat) (T : Z) (mode_before : bool) :
  enforcer c = DELEGATION_FRAMEWORK.TimestampEnforcer ->
  encodeTimestampTerms T mode_before = Returns (terms c) ->
  T <= 8640000000000 ->
  formatCaveat c =
  [EnforcerFmt TimestampEnforcerName;
   if mode_before then ExpiresFmt T else ValidAfterFmt T].
Proof.
  intros He Ht HT.
  pose proof (encodeTimestamp_range _ _ _ Ht) as HT0.
  apply encodeTimestamp_inv in Ht as (_ & Hs0 & Hs1 & Hv0 & Hv1).
  unfold formatCaveat. rewrite He.
  replace (enforcerName DELEGATION_FRAMEWORK.TimestampEnforcer)
    with TimestampEnforcerName by reflexivity.
  cbn [formatDecode].
  rewrite (bigint_of_hex_nonempty (slice 0 16 _))
    by (rewrite Hs0; apply nonempty_of_length; rewrite length_be_bytes; lia).
  rewrite (bigint_of_hex_nonempty (slice 16 32 _))
    by (rewrite Hs1; apply nonempty_of_length; rewrite length_be_bytes; lia).
  rewrite Hv0, Hv1, (to_number_small T) by lia.
  replace (iso_date_ok T) with true.
  2:{ symmetry. unfold iso_date_ok. rewrite to_number_small by lia.
      apply Z.leb_le. rewrite Z.abs_eq by lia. lia. }
  destruct mode_before; reflexivity.
Qed.

(** X23: [formatDelegation] reads a timestamp caveat laid out by
    [encodeTimestampTerms(T, mode)] the way the encoder wrote it: "Expires"
    at [T] in mode 'before' and "Valid after" [T] in mode 'after' (unlike
    the report of [check-scope.mjs], which reads [T] as a start time in
    both modes). *)
Theorem formatCaveat_timestamp (c : Caveat) (T : Z) (mode_before : bool) :
  enforcer c = DELEGATION_FRAMEWORK.TimestampEnforcer ->
  encodeTimestampTerms T mode_before = Returns (terms c) ->
  T <= 8640000000000 ->
  formatCaveat c =
  [EnforcerFmt TimestampEnforcerName;
   if mode_before then ExpiresFmt T else ValidAfterFmt T].
Proof. exact (formatCaveat_timestamp_eq c T mode_before). Qed.

Lemma formatCaveat_timestamp_witness :
  formatCaveat (Sample.before 1760086400) =
  [EnforcerFmt TimestampEnforcerName;
   if true then ExpiresFmt 1760086400 else ValidAfterFmt 1760086400].
Proof.
  apply (formatCaveat_timestamp (Sample.before 1760086400) 1760086400 true).
  - reflexivity.
  - vm_compute. reflexivity.
  - discriminate.
Defined.

(** X24: the caveat lines [formatDelegation] prints for a delegation
    returned by [buildDelegation]: the ValueLte caveat as "Max ETH: 0", the
    amount limit (when the amount is truthy) with the USDC address and the
    amount, and the expiry (when [expirySeconds] is truthy) as "Expires" at
    the build time in seconds plus [expirySeconds]; no decoding falls back
    to the raw terms. *)
Theorem formatDelegation_caveats_of_built (params : BuildParams) (now_ms : Z)
    (d : Delegation) :
  buildDelegation params now_ms = Returns d ->
  (forall e, p_expirySeconds params = Some e -> now_seconds now_ms + e <= 8640000000000) ->
  flat_map formatCaveat (caveats d) =
  [EnforcerFmt ValueLteEnforcerName; MaxEthZeroFmt] ++
  (match p_amount params with
   | Some a => if truthy (Some a)
               then [EnforcerFmt ERC20TransferAmountEnforcerName;
                     TokenFmt (be_bytes 20 USDC_ADDRESS); AmountFmt a]
               else []
   | None => []
   end) ++
  (match p_expirySeconds params with
   | Some e => if truthy (Some e)
               then [EnforcerFmt TimestampEnforcerName; ExpiresFmt (now_seconds now_ms + e)]
               else []
   | None => []
   end).
Proof.
  intros Hb HT.
  apply buildDelegation_inv in Hb as (_ & _ & _ & _ & _ & Hc & Ha & He).
  rewrite Hc. cbn [flat_map]. rewrite flat_map_app.
  replace (formatCaveat (mkCaveat DELEGATION_FRAMEWORK.ValueLteEnforcer
                                  (encodeValueLteTerms 0) []))
    with [EnforcerFmt ValueLteEnforcerName; MaxEthZeroFmt] by (vm_compute; reflexivity).
  apply (f_equal (app _)). apply f_equal2.
  - unfold built_amount_caveats.
    destruct (p_amount params) as [a|]; [|reflexivity].
    cbn [truthy]. destruct (Z.eqb_spec a 0) as [Ea|Ea]; cbn [negb]; [reflexivity|].
    cbn [flat_map]. rewrite app_nil_r. apply formatCaveat_amount. exact (Ha a eq_refl Ea).
  - unfold built_expiry_caveats.
    destruct (p_expirySeconds params) as [e|]; [|reflexivity].
    cbn [truthy]. destruct (Z.eqb_spec e 0) as [Ee|Ee]; cbn [negb]; [reflexivity|].
    specialize (He e eq_refl Ee). specialize (HT e eq_refl).
    destruct (to_number_nonneg_small (now_seconds now_ms + e) ltac:(lia) (proj1 He))
      as [Ht Hp].
    cbn [flat_map]. rewrite app_nil_r, Ht.
    apply (formatCaveat_timestamp_eq _ (now_seconds now_ms + e) true); [reflexivity| |lia].
    cbn [terms]. unfold encodeTimestampTerms. cbv beta iota zeta.
    rewrite !packed_uint_ok by (change (8 * Z.of_nat 16) with 128; lia). reflexivity.
Qed.

Lemma formatDelegation_caveats_of_built_witness :
  exists d,
    buildDelegation (mkBuildParams Sample.alice Sample.bob None (Some 1000000) (Some 86400))
                    Sample.now_ms = Returns d /\
    flat_map formatCaveat (caveats d) =
    [EnforcerFmt ValueLteEnforcerName; MaxEthZeroFmt;
     EnforcerFmt ERC20TransferAmountEnforcerName;
     TokenFmt (be_bytes 20 USDC_ADDRESS); AmountFmt 1000000;
     EnforcerFmt TimestampEnforcerName; ExpiresFmt (now_seconds Sample.now_ms + 86400)].
Proof.
  eexists. split; [vm_compute; reflexivity|].
  apply (formatDelegation_caveats_of_built
           (mkBuildParams Sample.alice Sample.bob None (Some 1000000) (Some 86400))
           Sample.now_ms).
  - vm_compute. reflexivity.
  - intros e H. cbn in H. injection H as <-. vm_compute. discriminate.
Defined.

(** ** The delegation script *)

(** X25: a delegation [create-delegation.mjs] creates (before signing) is a
    root delegation from the script's account to the given delegate, with
    the clock reading as salt and an empty signature; its caveats are
    ValueLte, then an amount limit unless the amount is 0, then an expiry
    when the parsed duration is a finite non-zero number of seconds. *)
Theorem createDelegation_shape (account delegate_ amount : Z) (expiry : string)
    (now_ms : Z) (d : Delegation) :
  createDelegation account delegate_ amount expiry now_ms = Some d ->
  exists v,
    parseDuration expiry = Seconds v /\
    delegator d = account /\ delegate d = delegate_ /\ authority d = ROOT_AUTHORITY /\
    salt d = now_ms /\ signature d = [] /\
    map enforcer (caveats d) =
    [DELEGATION_FRAMEWORK.ValueLteEnforcer] ++
    (if negb (amount =? 0) then [DELEGATION_FRAMEWORK.ERC20TransferAmountEnforcer] else []) ++
    (if truthy (expiry_param v) then [DELEGATION_FRAMEWORK.TimestampEnforcer] else []).
Proof.
  unfold createDelegation.
  destruct (parseDuration expiry) as [v|] eqn:Ep; [|discriminate].
  destruct v as [e| |]; [| discriminate |];
  (destruct (buildDelegation _ now_ms) as [d'|] eqn:Hb; intros H; [|discriminate];
   injection H as <-; eexists; split; [reflexivity|];
   pose proof (buildDelegation_enforcers _ _ _ Hb) as Hm;
   apply buildDelegation_inv in Hb as (Hd & Hr & Ha & Hs & Hsg & _);
   cbn in Hd, Hr, Ha, Hm; repeat split; assumption).
Qed.

Lemma createDelegation_shape_witness :
  exists d,
    createDelegation Sample.alice Sample.bob 1000000 "7d"%string Sample.now_ms = Some d /\
    exists v,
      parseDuration "7d"%string = Seconds v /\
      delegator d = Sample.alice /\ delegate d = Sample.bob /\ authority d = ROOT_AUTHORITY /\
      salt d = Sample.now_ms /\ signature d = [] /\
      map enforcer (caveats d) =
      [DELEGATION_FRAMEWORK.ValueLteEnforcer] ++
      (if negb (1000000 =? 0) then [DELEGATION_FRAMEWORK.ERC20TransferAmountEnforcer]
       else []) ++
      (if truthy (expiry_param v) then [DELEGATION_FRAMEWORK.TimestampEnforcer] else []).
Proof.
  eexists. split; [vm_compute; reflexivity|].
  apply (createDelegation_shape Sample.alice Sample.bob 1000000 "7d"%string Sample.now_ms).
  vm_compute. reflexivity.
Defined.

(** X26: [parseDuration] never returns [NaN]: a string the regular
    expression accepts always has a unit that [multipliers] defines, so the
    [value * undefined] case cannot happen; the result is a finite number
    of seconds, [Infinity] or the format error. *)
Theorem parseDuration_never_NaN (s : string) : parseDuration s <> Seconds NaN.
Proof.
  unfold parseDuration.
  destruct (duration_match s) as [[ds unit]|] eqn:E; [|discriminate].
  destruct (duration_match_some s ds unit E) as (_ & _ & _ & Hu).
  destruct (multipliers_units unit Hu) as (m & -> & _).
  unfold parseInt_digits, number_of_nonneg.
  destruct (to_number (digits_value ds) <? 2 ^ 1024); cbn [mul_number]; [|discriminate].
  unfold number_of_nonneg. destruct (_ <? 2 ^ 1024); discriminate.
Qed.
